(** * Verification of the line tokenizer and the citation renderer

    Shallow embedding of [src/utils/textParser.ts] (the tokenizer
    [tokenizeLine]) and of the citation branch of the [PreviewArea]
    component (bracket selection [getBrackets] and the decomposition of a
    citation token into verse, brackets and reference).

    JavaScript strings are sequences of UTF-16 code units; the regular
    expressions of the source carry no [u] flag, so they too work on code
    units.  A string is therefore a [list N]. *)

From Stdlib Require Import String Ascii NArith ZArith Lia Bool Arith List Sorted.
From Equations Require Import Equations.
Import ListNotations.

(** ** Strings of UTF-16 code units *)

Definition char := N.
Definition jstr := list char.

Module Utf.

(** Source literals are written in UTF-8; [utf16] decodes a Rocq string
    literal into the code units the JavaScript engine sees. *)
Definition cont (b : N) : N := N.land b 63.

Definition units (cp : N) : jstr :=
  if (cp <? 65536)%N then [cp]
  else let v := (cp - 65536)%N in
       [(55296 + N.shiftr v 10)%N; (56320 + N.land v 1023)%N].

Fixpoint decode (bs : list N) : jstr :=
  match bs with
  | [] => []
  | b :: r =>
      if (b <? 128)%N then b :: decode r
      else if (b <? 224)%N then
        match r with
        | b1 :: r1 => units (N.shiftl (N.land b 31) 6 + cont b1) ++ decode r1
        | _ => []
        end
      else if (b <? 240)%N then
        match r with
        | b1 :: b2 :: r2 =>
            units (N.shiftl (N.land b 15) 12 + N.shiftl (cont b1) 6 + cont b2)
              ++ decode r2
        | _ => []
        end
      else
        match r with
        | b1 :: b2 :: b3 :: r3 =>
            units (N.shiftl (N.land b 7) 18 + N.shiftl (cont b1) 12
                   + N.shiftl (cont b2) 6 + cont b3) ++ decode r3
        | _ => []
        end
  end.

Definition utf16 (s : string) : jstr :=
  decode (map N_of_ascii (list_ascii_of_string s)).

End Utf.

Definition U (s : string) : jstr := Utf.utf16 s.

(** ** The parts of the JavaScript library the source calls *)

Module JS.

Definition char_eqb (a b : char) : bool := N.eqb a b.

Fixpoint str_eqb (a b : jstr) : bool :=
  match a, b with
  | [], [] => true
  | x :: a', y :: b' => char_eqb x y && str_eqb a' b'
  | _, _ => false
  end.

(** [s.startsWith(p)] *)
Fixpoint startsWith (s p : jstr) {struct p} : bool :=
  match p with
  | [] => true
  | c :: p' =>
      match s with
      | x :: s' => char_eqb x c && startsWith s' p'
      | [] => false
      end
  end.

(** [s.endsWith(p)] *)
Definition endsWith (s p : jstr) : bool :=
  startsWith (rev s) (rev p).

(** [s.slice(start, end)]: a negative index counts from the end, both
    are clamped to the string, an empty range gives the empty string. *)
Definition slice (s : jstr) (start end_ : Z) : jstr :=
  let len := Z.of_nat (length s) in
  let from := if (start <? 0)%Z then Z.max (len + start) 0 else Z.min start len in
  let to := if (end_ <? 0)%Z then Z.max (len + end_) 0 else Z.min end_ len in
  let span := Z.max (to - from) 0 in
  firstn (Z.to_nat span) (skipn (Z.to_nat from) s).

(** [s.substring(0, n)] for a non-negative [n]. *)
Definition substring0 (s : jstr) (n : nat) : jstr := firstn n s.

(** [s.includes(sub)] *)
Fixpoint includes (s sub : jstr) : bool :=
  startsWith s sub ||
  match s with
  | [] => false
  | _ :: s' => includes s' sub
  end.

(** White space and line terminators: what [\s] matches and what
    [trim] removes. *)
Definition isWhiteSpace (c : char) : bool :=
  ((9 <=? c) && (c <=? 13) || (c =? 32) || (c =? 160) || (c =? 5760)
   || (8192 <=? c) && (c <=? 8202) || (c =? 8232) || (c =? 8233)
   || (c =? 8239) || (c =? 8287) || (c =? 12288) || (c =? 65279))%N.

Fixpoint trimStart (s : jstr) : jstr :=
  match s with
  | c :: s' => if isWhiteSpace c then trimStart s' else s
  | [] => []
  end.

Definition trimEnd (s : jstr) : jstr := rev (trimStart (rev s)).

(** [s.trim()] *)
Definition trim (s : jstr) : jstr := trimEnd (trimStart s).

(** [arr.includes(x)] on an array of strings *)
Definition arr_includes (arr : list jstr) (x : jstr) : bool :=
  existsb (str_eqb x) arr.

(** [arr.some(f)] *)
Definition some {A} (f : A -> bool) (arr : list A) : bool := existsb f arr.

(** [[...arr].sort(cmp)]: the sort is stable; [cmp a b <= 0] keeps [a]
    before [b]. *)
Fixpoint sort_insert {A} (cmp : A -> A -> Z) (x : A) (l : list A) : list A :=
  match l with
  | [] => [x]
  | y :: l' => if (cmp x y <=? 0)%Z then x :: l else y :: sort_insert cmp x l'
  end.

Definition sort {A} (cmp : A -> A -> Z) (arr : list A) : list A :=
  fold_right (sort_insert cmp) [] arr.

End JS.

(** ** Regular expressions

    The fragment of the JavaScript pattern language the source uses:
    single code units, the two character classes [[^c]] and [\s],
    concatenation, ordered alternation, the greedy optional group and the
    greedy [*] and [+] on a character class. *)

Inductive cls : Type :=
| NotChr (c : char)      (* [^c] *)
| Space.                 (* \s *)

Definition in_cls (k : cls) (x : char) : bool :=
  match k with
  | NotChr c => negb (JS.char_eqb x c)
  | Space => JS.isWhiteSpace x
  end.

Inductive regex : Type :=
| Eps
| Chr (c : char)
| Seq (r1 r2 : regex)
| Alt (r1 r2 : regex)
| Opt (r : regex)        (* (?:r)? *)
| Star (k : cls)         (* k* *)
| Plus (k : cls).        (* k+ *)

Section Matcher.
Variable A : Type.

(** Greedy iteration of a class: the longest run first, then shorter
    ones when the continuation fails. *)
Fixpoint star_loop (k : cls) (s : jstr) (cont : jstr -> option A) : option A :=
  match s with
  | x :: s' =>
      if in_cls k x then
        match star_loop k s' cont with
        | Some a => Some a
        | None => cont s
        end
      else cont s
  | [] => cont s
  end.

(** The backtracking matcher, in continuation-passing style: [cont]
    receives what is left of the input. *)
Fixpoint rmatch (r : regex) (s : jstr) (cont : jstr -> option A) : option A :=
  match r with
  | Eps => cont s
  | Chr c =>
      match s with
      | x :: s' => if JS.char_eqb x c then cont s' else None
      | [] => None
      end
  | Seq r1 r2 => rmatch r1 s (fun s1 => rmatch r2 s1 cont)
  | Alt r1 r2 =>
      match rmatch r1 s cont with
      | Some a => Some a
      | None => rmatch r2 s cont
      end
  | Opt r1 =>
      match rmatch r1 s cont with
      | Some a => Some a
      | None => cont s
      end
  | Star k => star_loop k s cont
  | Plus k =>
      match s with
      | x :: s' => if in_cls k x then star_loop k s' cont else None
      | [] => None
      end
  end.
End Matcher.

Arguments star_loop {A} k s cont.
Arguments rmatch {A} r s cont.

(** Sticky match of [r] at the head of [s]: the number of code units
    matched. *)
Definition matchAt (r : regex) (s : jstr) : option nat :=
  rmatch r s (fun rest => Some (length s - length rest)).

(** A literal string as a pattern. *)
Definition lit (s : jstr) : regex := fold_right (fun c r => Seq (Chr c) r) Eps s.

(** Alternation of a non-empty list of patterns, [r1|r2|...]. *)
Fixpoint alts (r : regex) (rs : list regex) : regex :=
  match rs with
  | [] => r
  | r' :: rs' => Alt r (alts r' rs')
  end.

Declare Scope regex_scope.
Delimit Scope regex_scope with re.
Infix ">>" := Seq (at level 60, right associativity) : regex_scope.

(** ** The tokenizer of [src/utils/textParser.ts] *)

Inductive TokenType : Type := STANDARD | NAME | QURAN | BOLD | ITALIC.

(** The token id is the template
    [token-${lineIndex}-${index}-${Date.now()}]; the record keeps its three
    holes. *)
Record TokenId : Type := { id_line : nat; id_index : nat; id_now : Z }.

Record TextToken : Type := { id : TokenId; text : jstr; type : TokenType }.

(** Code units of the delimiters. *)
Definition c_lbrace : char := 123%N.     (* { *)
Definition c_rbrace : char := 125%N.     (* } *)
Definition c_lbracket : char := 91%N.    (* [ *)
Definition c_rbracket : char := 93%N.    (* ] *)
Definition c_star : char := 42%N.        (* * *)
Definition c_underscore : char := 95%N.  (* _ *)
Definition c_lornate : char := 64831%N.  (* U+FD3F, opens an ornate quotation *)
Definition c_rornate : char := 64830%N.  (* U+FD3E, closes it *)

(** [escapeRegExp(name)]: every code unit with a meaning in a pattern gets
    a backslash, so the result matches [name] literally. *)
Definition escapeRegExp (name : jstr) : regex := lit name.

Section Patterns.
Local Open Scope regex_scope.

(** "\{[^}]+\}|﴿[^﴾]+﴾" *)
Definition versePattern : regex :=
  Alt (Chr c_lbrace >> Plus (NotChr c_rbrace) >> Chr c_rbrace)
      (Chr c_lornate >> Plus (NotChr c_rornate) >> Chr c_rornate).

(** "\[[^\]]+\]" *)
Definition bracketPattern : regex :=
  Chr c_lbracket >> Plus (NotChr c_rbracket) >> Chr c_rbracket.

(** "\s*\[[^\]]+\]" *)
Definition citationPattern : regex := Star Space >> bracketPattern.

(** "((?:\{[^}]+\}|﴿[^﴾]+﴾)(?:\s*\[[^\]]+\])?|\[[^\]]+\])" *)
Definition quranPattern : regex :=
  Alt (versePattern >> Opt citationPattern) bracketPattern.

(** The capture group of "\*\*[^\*]+\*\*". *)
Definition boldPattern : regex :=
  Chr c_star >> Chr c_star >> Plus (NotChr c_star) >> Chr c_star >> Chr c_star.

(** The capture group of "\*[^\*]+\*|_[^_]+_". *)
Definition italicPattern : regex :=
  Alt (Chr c_star >> Plus (NotChr c_star) >> Chr c_star)
      (Chr c_underscore >> Plus (NotChr c_underscore) >> Chr c_underscore).
End Patterns.

(** [[...customNames].sort((a, b) => b.length - a.length)] *)
Definition sortNames (customNames : list jstr) : list jstr :=
  JS.sort (fun a b => (Z.of_nat (length b) - Z.of_nat (length a))%Z) customNames.

(** [sortedNames.map(name => escapeRegExp(name)).join('|')], wrapped in its
    capture group.  The group is left out when the joined source is the
    empty string: for no name at all, and for a single name that is the
    empty string. *)
Definition namesRegexPart (sortedNames : list jstr) : option regex :=
  match sortedNames with
  | [] => None
  | [ [] ] => None
  | n :: ns => Some (alts (escapeRegExp n) (map escapeRegExp ns))
  end.

(** The master pattern as the list of its capture groups, each one a
    top-level alternative: Quran > Bold > Italic > Names. *)
Definition masterRegex (sortedNames : list jstr) : list regex :=
  [quranPattern; boldPattern; italicPattern]
  ++ match namesRegexPart sortedNames with
     | Some r => [r]
     | None => []
     end.

(** One sticky execution of the alternatives at the head of [s]: the
    length of the match and the array of captures, where only the group of
    the alternative that matched is defined. *)
Fixpoint exec (groups : list regex) (s : jstr) : option (nat * list (option jstr)) :=
  match groups with
  | [] => None
  | g :: gs =>
      match matchAt g s with
      | Some n => Some (n, Some (firstn n s) :: map (fun _ => None) gs)
      | None =>
          match exec gs s with
          | Some (n, caps) => Some (n, None :: caps)
          | None => None
          end
      end
  end.

Definition isEmpty (s : jstr) : bool :=
  match s with
  | [] => true
  | _ :: _ => false
  end.

(** The loop of [text.split(masterRegex)].  [pend] is the text between the
    end [p] of the last match and the cursor [q], [rest] the text from [q]
    on; a match of length [n] at [q] ends at [e = q + n].  When [e = p]
    (an empty match while [pend] is empty) the cursor moves on by one code
    unit; any other match pushes [pend], then every capture, and moves [p]
    and [q] to [e].  After the loop the text from [p] on is pushed. *)
Equations? split_loop (groups : list regex) (pend rest : jstr) : list (option jstr)
  by wf (2 * length rest + (if isEmpty pend then 0 else 1)) lt :=
split_loop groups pend [] := [Some pend];
split_loop groups pend (c :: rest') with exec groups (c :: rest') := {
  | None => split_loop groups (pend ++ [c]) rest'
  | Some (0, caps) with pend := {
    | [] => split_loop groups [c] rest'
    | x :: pend' => Some (x :: pend') :: caps ++ split_loop groups [] (c :: rest') }
  | Some (S n, caps) => Some pend :: caps ++ split_loop groups [] (skipn n rest') }.
Proof.
  all: try (destruct pend; simpl; lia).
  pose proof (length_skipn n rest'). destruct pend; simpl; lia.
Qed.

Definition split (text : jstr) (groups : list regex) : list (option jstr) :=
  split_loop groups [] text.

(** One run of the [forEach] callback that reaches [tokens.push]: the
    index of the part in [parts], the value of [currentCursor] on entry,
    the part itself and the token pushed. *)
Record Visit : Type :=
  { v_index : nat; v_cursor : nat; v_part : jstr; v_token : TextToken }.

Section TokenizeLine.
Variable text : jstr.
Variable customNames : list jstr.
Variable lineIndex : nat.
Variable namesAtStartOnly : bool.
(** [Date.now()] as read by the callback run on the part at an index. *)
Variable now : nat -> Z.

Definition sortedNames : list jstr := sortNames customNames.

(** [text.substring(0, currentCursor).trim().length === 0] *)
Definition prefixIsBlank (currentCursor : nat) : bool :=
  Nat.eqb (length (JS.trim (JS.substring0 text currentCursor))) 0.

(** The body of the callback from [let type] to the token's fields: the
    type and the final text of a part. *)
Definition classify (part : jstr) (currentCursor : nat) : TokenType * jstr :=
  if JS.startsWith part [c_lbrace] || JS.startsWith part [c_lornate]
     || JS.startsWith part [c_lbracket]
  then (QURAN, part)
  else if JS.startsWith part [c_star; c_star] && JS.endsWith part [c_star; c_star]
          && (4 <? length part)
  then
    let stripped := JS.slice part 2 (-2) in
    let containsName := JS.some (fun name => JS.includes stripped name) sortedNames in
    if containsName then
      if namesAtStartOnly then
        if prefixIsBlank currentCursor then (NAME, stripped) else (BOLD, stripped)
      else (NAME, stripped)
    else (BOLD, stripped)
  else if (JS.startsWith part [c_star] && JS.endsWith part [c_star])
          || (JS.startsWith part [c_underscore] && JS.endsWith part [c_underscore])
  then (ITALIC, JS.slice part 1 (-1))
  else if JS.arr_includes customNames part then
    if namesAtStartOnly then
      if prefixIsBlank currentCursor then (NAME, part) else (STANDARD, part)
    else (NAME, part)
  else (STANDARD, part).

(** [parts.forEach((part, index) => ...)], with [currentCursor] threaded
    through.  An [undefined] or empty part returns at once. *)
Fixpoint forEach (parts : list (option jstr)) (index currentCursor : nat)
  : list Visit :=
  match parts with
  | [] => []
  | None :: parts' => forEach parts' (S index) currentCursor
  | Some part :: parts' =>
      if isEmpty part then forEach parts' (S index) currentCursor
      else
        let (type_, finalText) := classify part currentCursor in
        {| v_index := index; v_cursor := currentCursor; v_part := part;
           v_token := Build_TextToken
                        (Build_TokenId lineIndex index (now index))
                        finalText type_ |}
        :: forEach parts' (S index) (currentCursor + length part)
  end.

Definition visits : list Visit :=
  if isEmpty text then []
  else forEach (split text (masterRegex sortedNames)) 0 0.

Definition tokenizeLine : list TextToken := map v_token visits.
End TokenizeLine.

(** What the renderer looks at: the kind and the text of a token. *)
Definition shape (t : TextToken) : TokenType * jstr := (type t, text t).

Definition noClock : nat -> Z := fun _ => 0%Z.

(** ** The citation branch of [PreviewArea] *)

Inductive VerseBracketType : Type := curly | round | square | angle | quranic.

Definition getBrackets (type_ : VerseBracketType) : jstr * jstr :=
  match type_ with
  | round => ([40%N], [41%N])             (* ( ) *)
  | square => ([c_lbracket], [c_rbracket])
  | angle => ([171%N], [187%N])           (* U+00AB, U+00BB *)
  | quranic => ([c_lornate], [c_rornate])
  | curly => ([c_lbrace], [c_rbrace])
  end.

(** [token.text.match(/^(verse)(citation)?$/)], where [verse] is
    [versePattern] and [citation] is [citationPattern]: the two captures
    of a match, the second one [None] when its group took no part.  The
    optional group is tried first; [$] demands the end of the text. *)
Definition verseMatch (s : jstr) : option (jstr * option jstr) :=
  rmatch versePattern s (fun s1 =>
    let g1 := firstn (length s - length s1) s in
    match rmatch citationPattern s1 (fun s2 =>
            if isEmpty s2 then Some (firstn (length s1 - length s2) s1) else None) with
    | Some g2 => Some (g1, Some g2)
    | None => if isEmpty s1 then Some (g1, None) else None
    end).

(** What the branch renders for a token of type [QURAN]: either one span
    with the token's text (the stand-alone citation), or the verse span
    [leftBracket content rightBracket] followed, when [citationContent] is
    not empty, by a span with [citationContent]. *)
Inductive QuranView : Type :=
| CitationNote (tokenText : jstr)
| VerseView (leftBracket content rightBracket citationContent : jstr).

Definition renderQuran (verseBrackets : VerseBracketType) (tokenText : jstr)
  : QuranView :=
  if JS.startsWith tokenText [c_lbracket] && JS.endsWith tokenText [c_rbracket]
  then CitationNote tokenText
  else
    let verseMatch_ := verseMatch tokenText in
    let verseContentRaw :=
      match verseMatch_ with
      | Some (g1, _) => g1
      | None => tokenText
      end in
    let citationContent :=
      match verseMatch_ with
      | Some (_, Some g2) => g2
      | _ => []
      end in
    let content :=
      if (JS.startsWith verseContentRaw [c_lbrace] && JS.endsWith verseContentRaw [c_rbrace])
         || (JS.startsWith verseContentRaw [c_lornate] && JS.endsWith verseContentRaw [c_rornate])
      then JS.slice verseContentRaw 1 (-1)
      else verseContentRaw in
    let (leftBracket, rightBracket) := getBrackets verseBrackets in
    VerseView leftBracket content rightBracket citationContent.

(** The decomposition read off the rendering. *)
Definition quoted (v : QuranView) : option jstr :=
  match v with
  | CitationNote _ => None
  | VerseView _ content _ _ => Some content
  end.

Definition reference (v : QuranView) : option jstr :=
  match v with
  | CitationNote t => Some t
  | VerseView _ _ _ [] => None
  | VerseView _ _ _ c => Some c
  end.

Definition delimiters (v : QuranView) : option (jstr * jstr) :=
  match v with
  | CitationNote _ => None
  | VerseView l _ r _ => Some (l, r)
  end.

(** ** Notions used in the statements *)

(** The text held by an array of parts: its defined elements, in order. *)
Definition joined (parts : list (option jstr)) : jstr :=
  flat_map (fun o => match o with Some p => p | None => [] end) parts.

(** [tiles vs offset s]: the spans of [vs] are non-empty, start at
    [offset], follow one another without gap or overlap, and spell [s]. *)
Fixpoint tiles (vs : list Visit) (offset : nat) (s : jstr) : Prop :=
  match vs with
  | [] => s = []
  | v :: vs' =>
      v_cursor v = offset /\ v_part v <> [] /\
      exists s', s = v_part v ++ s' /\ tiles vs' (offset + length (v_part v)) s'
  end.

(** The order of the sorted dictionary: longest first. *)
Definition byLength (a b : jstr) : Prop := length b <= length a.

(** [until r s]: the text of [s] before its first [r], and the text after
    that [r]; nothing when [s] holds no [r]. *)
Fixpoint until (r : char) (s : jstr) : option (jstr * jstr) :=
  match s with
  | [] => None
  | x :: s' =>
      if JS.char_eqb x r then Some ([], s')
      else match until r s' with
           | Some (body, rest) => Some (x :: body, rest)
           | None => None
           end
  end.

(** [enclosedPrefix l r s]: when [s] opens with [l] and a non-empty text
    free of [r] is followed by [r], that text and what follows the [r]. *)
Definition enclosedPrefix (l r : char) (s : jstr) : option (jstr * jstr) :=
  match s with
  | x :: s' =>
      if JS.char_eqb x l then
        match until r s' with
        | Some (y :: body, rest) => Some (y :: body, rest)
        | _ => None
        end
      else None
  | [] => None
  end.

(** The grammar of a citation in the words of the specification, to be
    compared with the patterns of the source: a text enclosed in a pair of
    delimiters, non-empty and free of the closing one; a quotation in
    braces or in ornate brackets; a reference in square brackets after
    optional white space; and the two-part form, a quotation optionally
    followed by such a reference. *)
Definition enclosed (l r : char) (s : jstr) : Prop :=
  exists body, s = l :: body ++ [r] /\ body <> [] /\ ~ In r body.

Definition quotation (s : jstr) : Prop :=
  enclosed c_lbrace c_rbrace s \/ enclosed c_lornate c_rornate s.

Definition spacedReference (s : jstr) : Prop :=
  exists ws ref, s = ws ++ ref /\ forallb JS.isWhiteSpace ws = true
                 /\ enclosed c_lbracket c_rbracket ref.

Definition twoPart (s : jstr) : Prop :=
  exists q c, s = q ++ c /\ quotation q /\ (c = [] \/ spacedReference c).

(** ** The rest of [src/utils/textParser.ts]: [escapeRegExp] on the
    pattern source, and [parseText] *)

Definition c_backslash : char := 92%N.
Definition c_bar : char := 124%N.       (* | *)
Definition c_newline : char := 10%N.

(** The class of [escapeRegExp]: dot, star, plus, question mark, caret,
    dollar, the braces, the parentheses, the bar, the square brackets and
    the backslash. *)
Definition escapeClass (c : char) : bool :=
  existsb (JS.char_eqb c)
          [46; 42; 43; 63; 94; 36; c_lbrace; c_rbrace; 40; 41; c_bar;
           c_lbracket; c_rbracket; c_backslash]%N.

(** [string.replace(/class/g, '\\$&')]: every code unit of the class gets a
    backslash in front of it.  This is the pattern source of which
    [escapeRegExp] above is the meaning. *)
Definition escapeRegExpSource (s : jstr) : jstr :=
  flat_map (fun c => if escapeClass c then [c_backslash; c] else [c]) s.

(** [arr.join(sep)] *)
Fixpoint join (sep : jstr) (arr : list jstr) : jstr :=
  match arr with
  | [] => []
  | [s] => s
  | s :: arr' => s ++ sep ++ join sep arr'
  end.

(** The source of the names group before it is wrapped:
    [sortedNames.map(name => escapeRegExp(name)).join('|')]. *)
Definition namesRegexSource (sortedNames : list jstr) : jstr :=
  join [c_bar] (map escapeRegExpSource sortedNames).

(** The syntax characters of the pattern language: caret, dollar,
    backslash, dot, star, plus, question mark, parentheses, square
    brackets, braces and bar.  Any other code unit is a pattern character
    and stands for itself. *)
Definition isSyntaxCharacter (c : char) : bool :=
  existsb (JS.char_eqb c)
          [94; 36; c_backslash; 46; 42; 43; 63; 40; 41; c_lbracket; c_rbracket;
           c_lbrace; c_rbrace; c_bar]%N.

(** Reading a pattern source as a disjunction of literal alternatives: a
    bar separates alternatives, a backslash before a syntax character is
    that character, a pattern character is itself; a source with any other
    construct is not of this form. *)
Fixpoint readLiterals (src : jstr) : option (list jstr) :=
  match src with
  | [] => Some [[]]
  | c :: rest =>
      if JS.char_eqb c c_backslash then
        match rest with
        | d :: rest' =>
            if isSyntaxCharacter d then
              match readLiterals rest' with
              | Some (a :: alts_) => Some ((d :: a) :: alts_)
              | _ => None
              end
            else None
        | [] => None
        end
      else if JS.char_eqb c c_bar then
        match readLiterals rest with
        | Some alts_ => Some ([] :: alts_)
        | None => None
        end
      else if isSyntaxCharacter c then None
      else
        match readLiterals rest with
        | Some (a :: alts_) => Some ((c :: a) :: alts_)
        | _ => None
        end
  end.

(** [text.split('\n')]: the texts between the line feeds; one more than
    there are line feeds. *)
Fixpoint splitLines (text : jstr) : list jstr :=
  match text with
  | [] => [[]]
  | c :: text' =>
      if JS.char_eqb c c_newline then [] :: splitLines text'
      else match splitLines text' with
           | line :: lines => (c :: line) :: lines
           | [] => [[c]]
           end
  end.

(** The paragraph id is the template [p-${index}-${Date.now()}]. *)
Record ParagraphId : Type := { pid_index : nat; pid_now : Z }.

Record ParsedParagraph : Type := { para_id : ParagraphId; tokens : list TextToken }.

(** [arr.map((x, index) => f(x, index))], counting from [index]. *)
Fixpoint mapFrom {A B : Type} (f : A -> nat -> B) (index : nat) (arr : list A) : list B :=
  match arr with
  | [] => []
  | x :: arr' => f x index :: mapFrom f (S index) arr'
  end.

Section ParseText.
Variable text : jstr.
Variable customNames : list jstr.
Variable namesAtStartOnly : bool.
(** [Date.now()] as read for the id of the paragraph at an index, and for
    the id of a token of that paragraph. *)
Variable nowP : nat -> Z.
Variable nowT : nat -> nat -> Z.

(** The callback runs of every paragraph, in order. *)
Definition paragraphVisits : list (list Visit) :=
  if isEmpty text then []
  else mapFrom (fun line index =>
                  visits line customNames index namesAtStartOnly (nowT index))
               0 (splitLines text).

Definition parseText : list ParsedParagraph :=
  if isEmpty text then []
  else mapFrom (fun line index =>
                  {| para_id := {| pid_index := index; pid_now := nowP index |};
                     tokens := tokenizeLine line customNames index namesAtStartOnly
                                            (nowT index) |})
               0 (splitLines text).
End ParseText.

(** ** The text a citation is displayed with *)

(** The text content of what [renderQuran] describes: the note, or the
    verse span [{leftBracket}{content}{rightBracket}] followed by the
    citation span. *)
Definition viewText (v : QuranView) : jstr :=
  match v with
  | CitationNote t => t
  | VerseView l content r citationContent => l ++ content ++ r ++ citationContent
  end.

(** ** The name list of [src/App.tsx] *)

Definition DEFAULT_NAMES : list jstr :=
  [U "الدكتور رشيد"; U "دكتور رشيد"; U "د. رشيد"; U "مصطفى"; U "زكريا"].

(** The two pieces of state [handleAddName] works on. *)
Record NamesState : Type := { customNames : list jstr; newNameInput : jstr }.

(** [handleAddName]: a trimmed input that is not empty and not yet in the
    list is appended and the input is cleared; otherwise nothing changes. *)
Definition handleAddName (st : NamesState) : NamesState :=
  if negb (isEmpty (JS.trim (newNameInput st)))
     && negb (JS.arr_includes (customNames st) (JS.trim (newNameInput st)))
  then {| customNames := customNames st ++ [JS.trim (newNameInput st)];
          newNameInput := [] |}
  else st.

(** [removeName]: [customNames.filter(n => n !== nameToRemove)] *)
Definition removeName (nameToRemove : jstr) (st : NamesState) : NamesState :=
  {| customNames := filter (fun n => negb (JS.str_eqb n nameToRemove)) (customNames st);
     newNameInput := newNameInput st |}.

(** A name as the list keeps it: not empty, no white space at either end. *)
Definition trimmedName (n : jstr) : Prop :=
  n <> [] /\ JS.trim n = n.

(** No white space only text. *)
Definition notBlank (s : jstr) : Prop := forallb JS.isWhiteSpace s = false.

(** The code units a pattern can start with. *)
Definition opensSpan (c : char) : bool :=
  existsb (JS.char_eqb c) [c_lbrace; c_lornate; c_lbracket; c_star; c_underscore].

Definition isNAME (t : TextToken) : bool :=
  match type t with
  | NAME => true
  | _ => false
  end.

(** Whether a pattern can match the empty text. *)
Fixpoint nullable (r : regex) : bool :=
  match r with
  | Eps => true
  | Chr _ => false
  | Seq r1 r2 => nullable r1 && nullable r2
  | Alt r1 r2 => nullable r1 || nullable r2
  | Opt _ => true
  | Star _ => true
  | Plus _ => false
  end.

(** ** The statistics of [src/App.tsx] *)

(** The loop of [text.split(r)] for a pattern without capture group: as
    [split_loop], with nothing pushed between the pieces. *)
Equations? splitPlain_loop (r : regex) (pend rest : jstr) : list jstr
  by wf (2 * length rest + (if isEmpty pend then 0 else 1)) lt :=
splitPlain_loop r pend [] := [pend];
splitPlain_loop r pend (c :: rest') with matchAt r (c :: rest') := {
  | None => splitPlain_loop r (pend ++ [c]) rest'
  | Some 0 with pend := {
    | [] => splitPlain_loop r [c] rest'
    | x :: pend' => (x :: pend') :: splitPlain_loop r [] (c :: rest') }
  | Some (S n) => pend :: splitPlain_loop r [] (skipn n rest') }.
Proof.
  all: try (destruct pend; simpl; lia).
  pose proof (length_skipn n rest'). destruct pend; simpl; lia.
Qed.

Definition splitPlain (text : jstr) (r : regex) : list jstr :=
  splitPlain_loop r [] text.

Record Stats : Type := { chars : nat; words : nat; paras : nat }.

(** The words the counter counts: [text.split(/\s+/)]. *)
Definition countedWords (text : jstr) : list jstr := splitPlain text (Plus Space).

(** The body of the [stats] memo, given the input and the paragraphs. *)
Definition stats (inputText : jstr) (paragraphs : list ParsedParagraph) : Stats :=
  if isEmpty (JS.trim inputText) then {| chars := 0; words := 0; paras := 0 |}
  else {| chars := length (JS.trim inputText);
          words := length (countedWords (JS.trim inputText));
          paras := length paragraphs |}.

(** [spacedWords ws t]: the text [t] is the words [ws] in order, with a
    non-empty run of white space between each word and the next, and
    nothing else. *)
Fixpoint spacedWords (ws : list jstr) (t : jstr) : Prop :=
  match ws with
  | [] => False
  | w :: ws' =>
      match ws' with
      | [] => t = w
      | _ :: _ =>
          exists sep t', t = w ++ sep ++ t' /\ sep <> []
                         /\ forallb JS.isWhiteSpace sep = true
                         /\ spacedWords ws' t'
      end
  end.

(** A text whose last code unit is not white space. *)
Definition endsUnspaced (s : jstr) : Prop :=
  exists a z, s = a ++ [z] /\ JS.isWhiteSpace z = false.

(** * Properties *)

(** ** The literals of the source, as code units *)

Lemma utf16_literals :
  U "{" = [c_lbrace] /\ U "}" = [c_rbrace]
  /\ U "[" = [c_lbracket] /\ U "]" = [c_rbracket]
  /\ U "*" = [c_star] /\ U "_" = [c_underscore]
  /\ U "﴿" = [c_lornate] /\ U "﴾" = [c_rornate]
  /\ getBrackets angle = (U "«", U "»")
  /\ U "د. رشيد"
     = [1583; 46; 32; 1585; 1588; 1610; 1583]%N
  /\ U "{الله نور} [النور: 35]"
     = [123; 1575; 1604; 1604; 1607; 32; 1606; 1608; 1585; 125; 32; 91;
        1575; 1604; 1606; 1608; 1585; 58; 32; 51; 53; 93]%N.
Proof. repeat split. Qed.

(** ** The matcher consumes a prefix of its input *)

Lemma star_loop_suffix (A : Type) (k : cls) (s : jstr) (cont : jstr -> option A) (a : A) :
  star_loop k s cont = Some a ->
  exists m rest, s = m ++ rest /\ cont rest = Some a.
Proof.
  induction s as [|x s IH]; simpl; intros H.
  - exists [], []. auto.
  - destruct (in_cls k x).
    + destruct (star_loop k s cont) as [b|] eqn:E.
      * inversion H; subst b.
        destruct (IH eq_refl) as (m & rest & -> & Hc).
        exists (x :: m), rest. auto.
      * exists [], (x :: s). auto.
    + exists [], (x :: s). auto.
Qed.

Lemma rmatch_suffix (r : regex) :
  forall (A : Type) (s : jstr) (cont : jstr -> option A) (a : A),
    rmatch r s cont = Some a ->
    exists m rest, s = m ++ rest /\ cont rest = Some a.
Proof.
  induction r as [|c|r1 IH1 r2 IH2|r1 IH1 r2 IH2|r1 IH1|k|k];
    intros A s cont a H; simpl in H.
  - exists [], s. auto.
  - destruct s as [|x s]; [discriminate|].
    destruct (JS.char_eqb x c); [|discriminate].
    exists [x], s. auto.
  - apply IH1 in H. destruct H as (m1 & s1 & -> & H).
    apply IH2 in H. destruct H as (m2 & s2 & -> & H).
    exists (m1 ++ m2), s2. rewrite app_assoc. auto.
  - destruct (rmatch r1 s cont) as [b|] eqn:E.
    + inversion H; subst b. eauto.
    + eauto.
  - destruct (rmatch r1 s cont) as [b|] eqn:E.
    + inversion H; subst b. eauto.
    + exists [], s. auto.
  - exact (star_loop_suffix A k s cont a H).
  - destruct s as [|x s]; [discriminate|].
    destruct (in_cls k x); [|discriminate].
    apply (star_loop_suffix A k s cont a) in H. destruct H as (m & rest & -> & H).
    exists (x :: m), rest. auto.
Qed.

Lemma matchAt_prefix (r : regex) (s : jstr) (n : nat) :
  matchAt r s = Some n ->
  exists m rest, s = m ++ rest /\ n = length m.
Proof.
  unfold matchAt. intros H. apply rmatch_suffix in H.
  destruct H as (m & rest & -> & H). exists m, rest. split; [reflexivity|].
  inversion H. rewrite length_app. lia.
Qed.

Lemma joined_app (a b : list (option jstr)) : joined (a ++ b) = joined a ++ joined b.
Proof. unfold joined. apply flat_map_app. Qed.

Lemma joined_undefined (B : Type) (l : list B) : joined (map (fun _ => None) l) = [].
Proof. induction l; simpl; auto. Qed.

(** A successful execution captures exactly the text it matched. *)
Lemma exec_joined (groups : list regex) :
  forall (s : jstr) (n : nat) (caps : list (option jstr)),
    exec groups s = Some (n, caps) ->
    joined caps = firstn n s /\ n <= length s /\ length caps = length groups.
Proof.
  induction groups as [|g gs IH]; intros s n caps H; simpl in H; [discriminate|].
  destruct (matchAt g s) as [k|] eqn:E.
  - inversion H; subst n caps. simpl.
    rewrite joined_undefined, app_nil_r, length_map.
    apply matchAt_prefix in E. destruct E as (m & rest & -> & ->).
    rewrite length_app. repeat split; lia.
  - destruct (exec gs s) as [[k caps']|] eqn:E'; [|discriminate].
    inversion H; subst n caps. simpl.
    destruct (IH _ _ _ E') as (? & ? & ?). repeat split; auto.
Qed.

(** The parts of [split] spell the text. *)
Lemma split_loop_joined (groups : list regex) (pend rest : jstr) :
  joined (split_loop groups pend rest) = pend ++ rest.
Proof.
  funelim (split_loop groups pend rest); clear Heqcall.
  - simpl. now rewrite !app_nil_r.
  - apply exec_joined in Heq. destruct Heq as (Hj & _).
    simpl. rewrite joined_app, H, Hj. simpl.
    now rewrite firstn_skipn.
  - rewrite H. now rewrite <- app_assoc.
  - exact H.
  - apply exec_joined in Heq. destruct Heq as (Hj & _).
    simpl. rewrite joined_app, H, Hj. reflexivity.
Qed.

Lemma split_joined (text : jstr) (groups : list regex) :
  joined (split text groups) = text.
Proof. unfold split. now rewrite split_loop_joined. Qed.

(** ** The callback sees every part at its offset in the line *)

Section ForEach.
Variables (text : jstr) (customNames : list jstr) (lineIndex : nat)
          (namesAtStartOnly : bool) (now : nat -> Z).

Lemma forEach_tiles (parts : list (option jstr)) :
  forall index cur,
    tiles (forEach text customNames lineIndex namesAtStartOnly now parts index cur)
          cur (joined parts).
Proof.
  induction parts as [|[part|] parts IH]; intros index cur; simpl.
  - reflexivity.
  - destruct part as [|x part]; simpl.
    + apply IH.
    + destruct (classify text customNames namesAtStartOnly (x :: part) cur)
        as [ty ft] eqn:E.
      simpl. split; [reflexivity|]. split; [discriminate|].
      exists (joined parts). split; [reflexivity|]. apply IH.
  - apply IH.
Qed.

Lemma forEach_classify (parts : list (option jstr)) :
  forall index cur,
    Forall (fun v => shape (v_token v)
                     = classify text customNames namesAtStartOnly (v_part v) (v_cursor v))
           (forEach text customNames lineIndex namesAtStartOnly now parts index cur).
Proof.
  induction parts as [|[part|] parts IH]; intros index cur; simpl.
  - constructor.
  - destruct part as [|x part]; simpl.
    + apply IH.
    + destruct (classify text customNames namesAtStartOnly (x :: part) cur)
        as [ty ft] eqn:E.
      constructor.
      * unfold shape. simpl. now rewrite E.
      * apply IH.
  - apply IH.
Qed.
End ForEach.

Lemma tiles_concat (vs : list Visit) :
  forall offset s, tiles vs offset s -> concat (map v_part vs) = s.
Proof.
  induction vs as [|v vs IH]; simpl; intros offset s H.
  - now subst.
  - destruct H as (_ & _ & s' & -> & H). f_equal. eauto.
Qed.

(** A span of a tiling sits in the text at its cursor. *)
Lemma tiles_at (vs : list Visit) :
  forall (pre s : jstr) (v : Visit),
    tiles vs (length pre) s -> In v vs ->
    v_part v <> [] /\
    exists suf, pre ++ s = firstn (v_cursor v) (pre ++ s) ++ v_part v ++ suf
                /\ length (firstn (v_cursor v) (pre ++ s)) = v_cursor v.
Proof.
  induction vs as [|w vs IH]; simpl; intros pre s v H Hin; [contradiction|].
  destruct H as (Hc & Hne & s' & -> & H).
  destruct Hin as [->|Hin].
  - split; [assumption|]. exists s'.
    rewrite Hc, firstn_app, firstn_all, Nat.sub_diag. simpl.
    rewrite app_nil_r. split; reflexivity.
  - rewrite <- length_app in H.
    destruct (IH (pre ++ v_part w) s' v H Hin) as (Hv & suf & E & L).
    rewrite <- app_assoc in E, L.
    split; [assumption|]. exists suf. split; assumption.
Qed.

Lemma visits_tiles text customNames lineIndex namesAtStartOnly now :
  tiles (visits text customNames lineIndex namesAtStartOnly now) 0 text.
Proof.
  unfold visits. destruct (isEmpty text) eqn:E.
  - destruct text; [reflexivity | discriminate].
  - pose proof (forEach_tiles text customNames lineIndex namesAtStartOnly now
                  (split text (masterRegex (sortedNames customNames))) 0 0) as T.
    now rewrite split_joined in T.
Qed.

(** Every token comes from a non-empty span of the line, classified with
    the cursor at the span's offset. *)
Lemma visit_inv text customNames lineIndex namesAtStartOnly now (v : Visit) :
  In v (visits text customNames lineIndex namesAtStartOnly now) ->
  shape (v_token v) = classify text customNames namesAtStartOnly (v_part v) (v_cursor v)
  /\ v_part v <> []
  /\ exists suf, text = firstn (v_cursor v) text ++ v_part v ++ suf
                 /\ length (firstn (v_cursor v) text) = v_cursor v.
Proof.
  intros Hin. split.
  - unfold visits in Hin. destruct (isEmpty text); [contradiction|].
    pose proof (forEach_classify text customNames lineIndex namesAtStartOnly now
                  (split text (masterRegex (sortedNames customNames))) 0 0) as F.
    rewrite Forall_forall in F. now apply F.
  - exact (tiles_at _ [] text v (visits_tiles _ _ _ _ _) Hin).
Qed.

(** ** C1: the spans of the tokens spell the line *)

(** C1.  For every line, dictionary and policy flag, the spans the tokens
    were made from (the parts before any marker is stripped), taken in the
    order of the tokens, concatenate to the line; they are non-empty, the
    first starts at offset 0 and each next one where the previous ends;
    every token is the classification of its span. *)
Theorem tokenize_spans_reconstruct_line
  (text : jstr) (customNames : list jstr) (lineIndex : nat)
  (namesAtStartOnly : bool) (now : nat -> Z) :
  let vs := visits text customNames lineIndex namesAtStartOnly now in
  tokenizeLine text customNames lineIndex namesAtStartOnly now = map v_token vs
  /\ concat (map v_part vs) = text
  /\ tiles vs 0 text
  /\ Forall (fun v => shape (v_token v)
                      = classify text customNames namesAtStartOnly (v_part v) (v_cursor v)) vs.
Proof.
  intros vs. pose proof (visits_tiles text customNames lineIndex namesAtStartOnly now) as T.
  split; [reflexivity|]. split; [exact (tiles_concat _ _ _ T)|]. split; [exact T|].
  rewrite Forall_forall. intros v Hv.
  now destruct (visit_inv _ _ _ _ _ _ Hv).
Qed.

(** ** Facts about the library functions *)

Lemma char_eqb_eq (a b : char) : JS.char_eqb a b = true <-> a = b.
Proof. apply N.eqb_eq. Qed.

Lemma str_eqb_eq (a b : jstr) : JS.str_eqb a b = true <-> a = b.
Proof.
  revert b. induction a as [|x a IH]; intros [|y b]; simpl;
    try (split; [discriminate | discriminate]); [tauto|].
  rewrite andb_true_iff, char_eqb_eq, IH.
  split; [intros [-> ->]; reflexivity | intros H; inversion H; auto].
Qed.

Lemma arr_includes_In (arr : list jstr) (x : jstr) :
  JS.arr_includes arr x = true <-> In x arr.
Proof.
  unfold JS.arr_includes. rewrite existsb_exists. split.
  - intros (y & Hy & E). apply str_eqb_eq in E. now subst.
  - intros H. exists x. split; [assumption | now apply str_eqb_eq].
Qed.

Lemma startsWith_iff (s p : jstr) :
  JS.startsWith s p = true <-> exists rest, s = p ++ rest.
Proof.
  revert s. induction p as [|c p IH]; intros s.
  - split; [intros _; now exists s | intros _; destruct s; reflexivity].
  - destruct s as [|x s]; simpl.
    + split; [discriminate | intros (rest & H); discriminate].
    + rewrite andb_true_iff, char_eqb_eq, IH. split.
      * intros (-> & rest & ->). now exists rest.
      * intros (rest & H). inversion H; subst. split; [reflexivity | now exists rest].
Qed.

Lemma startsWith_app (p rest : jstr) : JS.startsWith (p ++ rest) p = true.
Proof. apply startsWith_iff. now exists rest. Qed.

Lemma endsWith_app (pre p : jstr) : JS.endsWith (pre ++ p) p = true.
Proof. unfold JS.endsWith. rewrite rev_app_distr. apply startsWith_app. Qed.

Lemma startsWith_skipn (s p : jstr) :
  JS.startsWith s p = true -> s = p ++ skipn (length p) s.
Proof.
  intros H. apply startsWith_iff in H. destruct H as (rest & ->).
  now rewrite skipn_app, skipn_all, Nat.sub_diag.
Qed.

Lemma slice_inner (s : jstr) (a b : nat) :
  0 < b ->
  JS.slice s (Z.of_nat a) (- Z.of_nat b) = firstn (length s - b - a) (skipn a s).
Proof.
  intros Hb. unfold JS.slice.
  destruct (Z.of_nat a <? 0)%Z eqn:Ea; [apply Z.ltb_lt in Ea; lia|].
  destruct (- Z.of_nat b <? 0)%Z eqn:Eb; [|apply Z.ltb_ge in Eb; lia].
  destruct (Nat.le_gt_cases a (length s)) as [L|L].
  - f_equal; [lia | f_equal; lia].
  - rewrite !skipn_all2 by lia. now rewrite !firstn_nil.
Qed.

Lemma slice_strip (l c r : jstr) :
  r <> [] ->
  JS.slice (l ++ c ++ r) (Z.of_nat (length l)) (- Z.of_nat (length r)) = c.
Proof.
  intros Hr. rewrite slice_inner by (destruct r; simpl; [congruence | lia]).
  rewrite skipn_app, skipn_all, Nat.sub_diag. simpl.
  rewrite !length_app.
  replace (length l + (length c + length r) - length r - length l) with (length c) by lia.
  rewrite firstn_app, firstn_all, Nat.sub_diag. simpl. apply app_nil_r.
Qed.

Lemma trimStart_nil (s : jstr) :
  JS.trimStart s = [] <-> forallb JS.isWhiteSpace s = true.
Proof.
  induction s as [|c s IH]; simpl; [tauto|].
  destruct (JS.isWhiteSpace c); simpl; [assumption|].
  split; discriminate.
Qed.

Lemma trimStart_blank (s : jstr) :
  forallb JS.isWhiteSpace (JS.trimStart s) = true -> JS.trimStart s = [].
Proof.
  induction s as [|c s IH]; simpl; [reflexivity|].
  destruct (JS.isWhiteSpace c) eqn:E; [assumption|].
  simpl. rewrite E. discriminate.
Qed.

Lemma forallb_rev (A : Type) (f : A -> bool) (l : list A) :
  forallb f (rev l) = forallb f l.
Proof.
  induction l as [|x l IH]; simpl; [reflexivity|].
  rewrite forallb_app, IH. simpl. rewrite andb_true_r. apply andb_comm.
Qed.

(** [s.trim().length === 0] says that [s] is white space only. *)
Lemma trim_blank (s : jstr) :
  Nat.eqb (length (JS.trim s)) 0 = forallb JS.isWhiteSpace s.
Proof.
  destruct (forallb JS.isWhiteSpace s) eqn:E.
  - unfold JS.trim, JS.trimEnd. apply trimStart_nil in E. rewrite E. reflexivity.
  - apply Nat.eqb_neq. intros H. apply length_zero_iff_nil in H.
    unfold JS.trim, JS.trimEnd in H.
    assert (H1 : JS.trimStart (rev (JS.trimStart s)) = []).
    { rewrite <- (rev_involutive (JS.trimStart _)). now rewrite H. }
    apply trimStart_nil in H1. rewrite forallb_rev in H1.
    apply trimStart_blank in H1. apply trimStart_nil in H1. congruence.
Qed.

Lemma prefixIsBlank_spec (line : jstr) (cursor : nat) :
  prefixIsBlank line cursor = forallb JS.isWhiteSpace (firstn cursor line).
Proof. unfold prefixIsBlank, JS.substring0. apply trim_blank. Qed.

(** ** The sorted dictionary *)

Lemma sort_insert_In (A : Type) (cmp : A -> A -> Z) (x y : A) (l : list A) :
  In y (JS.sort_insert cmp x l) <-> y = x \/ In y l.
Proof.
  induction l as [|z l IH]; simpl.
  - intuition.
  - destruct (cmp x z <=? 0)%Z; simpl; [intuition | rewrite IH; intuition].
Qed.

Lemma sortNames_In (names : list jstr) (x : jstr) :
  In x (sortNames names) <-> In x names.
Proof.
  unfold sortNames, JS.sort. induction names as [|n names IH]; simpl; [tauto|].
  rewrite sort_insert_In, IH. intuition.
Qed.

Lemma some_sortedNames (f : jstr -> bool) (names : list jstr) :
  JS.some f (sortedNames names) = existsb f names.
Proof.
  unfold JS.some, sortedNames.
  destruct (existsb f names) eqn:E.
  - apply existsb_exists in E. destruct E as (x & Hx & Fx).
    apply existsb_exists. exists x. split; [now apply sortNames_In | assumption].
  - destruct (existsb f (sortNames names)) eqn:E'; [|reflexivity].
    apply existsb_exists in E'. destruct E' as (x & Hx & Fx).
    apply (proj1 (sortNames_In _ _)) in Hx.
    assert (existsb f names = true) by (apply existsb_exists; exists x; auto).
    congruence.
Qed.

(** ** C2: bold spans *)

Lemma classify_bold (line : jstr) (names : list jstr) (atStartOnly : bool)
      (content : jstr) (cursor : nat) :
  content <> [] ->
  classify line names atStartOnly ([c_star; c_star] ++ content ++ [c_star; c_star]) cursor
  = (if existsb (fun name => JS.includes content name) names
     then if atStartOnly
          then if forallb JS.isWhiteSpace (firstn cursor line) then NAME else BOLD
          else NAME
     else BOLD,
     content).
Proof.
  intros Hne. unfold classify.
  change (JS.startsWith ([c_star; c_star] ++ content ++ [c_star; c_star]) [c_lbrace])
    with false.
  change (JS.startsWith ([c_star; c_star] ++ content ++ [c_star; c_star]) [c_lornate])
    with false.
  change (JS.startsWith ([c_star; c_star] ++ content ++ [c_star; c_star]) [c_lbracket])
    with false.
  cbv beta iota delta [orb].
  rewrite startsWith_app.
  rewrite (app_assoc [c_star; c_star] content), endsWith_app.
  rewrite <- app_assoc.
  assert (L : (4 <? length ([c_star; c_star] ++ content ++ [c_star; c_star])) = true).
  { apply Nat.ltb_lt. rewrite !length_app. simpl.
    destruct content; [congruence | simpl; lia]. }
  rewrite L. cbv beta iota delta [andb].
  assert (S : JS.slice ([c_star; c_star] ++ content ++ [c_star; c_star]) 2 (-2) = content).
  { apply (slice_strip [c_star; c_star] content [c_star; c_star]). discriminate. }
  rewrite S.
  rewrite some_sortedNames, prefixIsBlank_spec.
  destruct (existsb _ names), atStartOnly,
    (forallb JS.isWhiteSpace (firstn cursor line)); reflexivity.
Qed.

(** C2.  A token whose span is a bold span (two stars, a non-empty content,
    two stars) has the content as text.  When the content contains a
    dictionary name as a substring, it is a NAME if the policy flag is off,
    and with the flag on it is a NAME exactly when the line before the
    span's offset is white space only and BOLD otherwise; when the content
    contains no dictionary name it is BOLD.  On the line of the example,
    with the flag on, the bold span is a NAME with the stripped text. *)
Theorem bold_span_classification :
  (forall (line : jstr) (names : list jstr) (lineIndex : nat) (atStartOnly : bool)
          (now : nat -> Z) (v : Visit) (content : jstr),
      In v (visits line names lineIndex atStartOnly now) ->
      v_part v = [c_star; c_star] ++ content ++ [c_star; c_star] ->
      content <> [] ->
      text (v_token v) = content
      /\ type (v_token v)
         = (if existsb (fun name => JS.includes content name) names
            then if atStartOnly
                 then if forallb JS.isWhiteSpace (firstn (v_cursor v) line)
                      then NAME else BOLD
                 else NAME
            else BOLD)
      /\ exists suf, line = firstn (v_cursor v) line ++ v_part v ++ suf)
  /\ (forall (lineIndex : nat) (now : nat -> Z),
         map shape (tokenizeLine (U "**د. رشيد:** قال") [U "د. رشيد"] lineIndex true now)
         = [(NAME, U "د. رشيد:"); (STANDARD, U " قال")]).
Proof.
  split.
  - intros line names lineIndex atStartOnly now v content Hin Hpart Hne.
    destruct (visit_inv _ _ _ _ _ _ Hin) as (Hs & _ & suf & Hsuf & _).
    rewrite Hpart, classify_bold in Hs by assumption.
    unfold shape in Hs. injection Hs as Hty Htx.
    split; [assumption|]. split; [assumption|]. now exists suf.
  - intros lineIndex now. vm_compute. reflexivity.
Qed.

Lemma bold_span_classification_witness :
  let line := U "مرحبا **مصطفى**" in
  let v := {| v_index := 2; v_cursor := 6; v_part := U "**مصطفى**";
              v_token := Build_TextToken (Build_TokenId 0 2 0%Z) (U "مصطفى") BOLD |} in
  text (v_token v) = U "مصطفى" /\ type (v_token v) = BOLD
  /\ exists suf, line = firstn (v_cursor v) line ++ v_part v ++ suf.
Proof.
  intros line v.
  apply (proj1 bold_span_classification line [U "مصطفى"] 0 true noClock v (U "مصطفى")).
  - vm_compute. right. left. reflexivity.
  - vm_compute. reflexivity.
  - vm_compute. discriminate.
Defined.

(** ** C3: bare dictionary matches *)

Lemma startsWith_app_l (s p q : jstr) :
  JS.startsWith s (p ++ q) = true -> JS.startsWith s p = true.
Proof.
  rewrite !startsWith_iff. intros (rest & ->). exists (q ++ rest).
  now rewrite app_assoc.
Qed.

Lemma endsWith_app_r (s p q : jstr) :
  JS.endsWith s (q ++ p) = true -> JS.endsWith s p = true.
Proof.
  unfold JS.endsWith. rewrite rev_app_distr. apply startsWith_app_l.
Qed.

Lemma classify_name (line : jstr) (names : list jstr) (atStartOnly : bool)
      (part : jstr) (cursor : nat) :
  In part names ->
  JS.startsWith part [c_lbrace] = false ->
  JS.startsWith part [c_lornate] = false ->
  JS.startsWith part [c_lbracket] = false ->
  JS.startsWith part [c_star] && JS.endsWith part [c_star] = false ->
  JS.startsWith part [c_underscore] && JS.endsWith part [c_underscore] = false ->
  classify line names atStartOnly part cursor
  = (if atStartOnly
     then if forallb JS.isWhiteSpace (firstn cursor line) then NAME else STANDARD
     else NAME,
     part).
Proof.
  intros Hin H1 H2 H3 H4 H5. unfold classify.
  rewrite H1, H2, H3, H4, H5. cbv beta iota delta [orb].
  assert (B : JS.startsWith part [c_star; c_star] && JS.endsWith part [c_star; c_star]
              = false).
  { destruct (JS.startsWith part [c_star; c_star]) eqn:S2; [|reflexivity].
    destruct (JS.endsWith part [c_star; c_star]) eqn:E2; [|reflexivity].
    apply (startsWith_app_l part [c_star] [c_star]) in S2.
    apply (endsWith_app_r part [c_star] [c_star]) in E2.
    rewrite S2, E2 in H4. discriminate. }
  rewrite B. cbv beta iota delta [andb].
  apply arr_includes_In in Hin. rewrite Hin, prefixIsBlank_spec.
  destruct atStartOnly, (forallb JS.isWhiteSpace (firstn cursor line)); reflexivity.
Qed.

(** Where the name branch is reached.  A token whose span is a dictionary
    entry that does not begin with an opening brace, ornate bracket or
    square bracket and does not both begin and end with a star, or with an
    underscore, keeps the span as its text; it is a NAME when the policy
    flag is off, and with the flag on it is a NAME exactly when the line
    before the span's offset is white space only and STANDARD otherwise.
    The three lines of the example classify the name as stated. *)
Theorem bare_name_classification :
  (forall (line : jstr) (names : list jstr) (lineIndex : nat) (atStartOnly : bool)
          (now : nat -> Z) (v : Visit),
      In v (visits line names lineIndex atStartOnly now) ->
      In (v_part v) names ->
      JS.startsWith (v_part v) [c_lbrace] = false ->
      JS.startsWith (v_part v) [c_lornate] = false ->
      JS.startsWith (v_part v) [c_lbracket] = false ->
      JS.startsWith (v_part v) [c_star] && JS.endsWith (v_part v) [c_star] = false ->
      JS.startsWith (v_part v) [c_underscore] && JS.endsWith (v_part v) [c_underscore]
      = false ->
      text (v_token v) = v_part v
      /\ type (v_token v)
         = (if atStartOnly
            then if forallb JS.isWhiteSpace (firstn (v_cursor v) line)
                 then NAME else STANDARD
            else NAME)
      /\ exists suf, line = firstn (v_cursor v) line ++ v_part v ++ suf)
  /\ (forall (lineIndex : nat) (now : nat -> Z),
         map shape (tokenizeLine (U "مرحبا مصطفى") [U "مصطفى"] lineIndex true now)
         = [(STANDARD, U "مرحبا "); (STANDARD, U "مصطفى")]
         /\ map shape (tokenizeLine (U "مرحبا مصطفى") [U "مصطفى"] lineIndex false now)
            = [(STANDARD, U "مرحبا "); (NAME, U "مصطفى")]
         /\ map shape (tokenizeLine (U "مصطفى قال") [U "مصطفى"] lineIndex true now)
            = [(NAME, U "مصطفى"); (STANDARD, U " قال")]).
Proof.
  split.
  - intros line names lineIndex atStartOnly now v Hin Hname H1 H2 H3 H4 H5.
    destruct (visit_inv _ _ _ _ _ _ Hin) as (Hs & _ & suf & Hsuf & _).
    rewrite (classify_name line names atStartOnly (v_part v) (v_cursor v) Hname H1 H2 H3 H4 H5) in Hs.
    unfold shape in Hs. injection Hs as Hty Htx.
    split; [assumption|]. split; [assumption|]. now exists suf.
  - intros lineIndex now. repeat split; vm_compute; reflexivity.
Qed.

Lemma bare_name_classification_witness :
  let line := U "قال مصطفى" in
  let v := {| v_index := 4; v_cursor := 4; v_part := U "مصطفى";
              v_token := Build_TextToken (Build_TokenId 0 4 0%Z) (U "مصطفى") STANDARD |} in
  text (v_token v) = v_part v /\ type (v_token v) = STANDARD
  /\ exists suf, line = firstn (v_cursor v) line ++ v_part v ++ suf.
Proof.
  intros line v.
  apply (proj1 bare_name_classification line [U "رشيد"; U "مصطفى"] 0 true noClock v).
  - vm_compute. right. left. reflexivity.
  - vm_compute. right. left. reflexivity.
  - vm_compute. reflexivity.
  - vm_compute. reflexivity.
  - vm_compute. reflexivity.
  - vm_compute. reflexivity.
  - vm_compute. reflexivity.
Defined.

(** The rule does not hold for every bare dictionary match: a dictionary
    entry that opens like a citation, found where none of the three
    patterns matches, is typed QURAN. *)
Lemma bare_name_counterexample :
  ~ (forall (line : jstr) (names : list jstr) (lineIndex : nat) (atStartOnly : bool)
            (now : nat -> Z) (v : Visit),
        In v (visits line names lineIndex atStartOnly now) ->
        In (v_part v) names ->
        matchAt quranPattern (skipn (v_cursor v) line) = None ->
        matchAt boldPattern (skipn (v_cursor v) line) = None ->
        matchAt italicPattern (skipn (v_cursor v) line) = None ->
        type (v_token v)
        = (if atStartOnly
           then if forallb JS.isWhiteSpace (firstn (v_cursor v) line)
                then NAME else STANDARD
           else NAME)).
Proof.
  intros H.
  specialize (H (U "{a") [U "{a"] 0 false noClock
                {| v_index := 4; v_cursor := 0; v_part := U "{a";
                   v_token := Build_TextToken (Build_TokenId 0 4 0%Z) (U "{a") QURAN |}).
  vm_compute in H.
  specialize (H (or_introl eq_refl) (or_introl eq_refl) eq_refl eq_refl eq_refl).
  discriminate H.
Qed.

(** C3, at the failing input.  The dictionary entry that is an opening
    brace and a letter, alone on its line: none of the citation, bold and
    italic patterns matches, the names group captures the entry, and the
    callback, which tests the first code unit of the part before it looks
    the part up in the dictionary, types the token QURAN under either
    policy, where the rule for a bare dictionary match gives NAME.  In the
    same way the dictionary entry that is a lone star is captured by the
    names group and typed ITALIC, with an empty text. *)
Theorem bare_name_typed_by_shape
  (lineIndex : nat) (atStartOnly : bool) (now : nat -> Z) :
  matchAt quranPattern (U "{a") = None
  /\ matchAt boldPattern (U "{a") = None
  /\ matchAt italicPattern (U "{a") = None
  /\ exec (masterRegex (sortedNames [U "{a"])) (U "{a")
     = Some (2, [None; None; None; Some (U "{a")])
  /\ forallb JS.isWhiteSpace (firstn 0 (U "{a")) = true
  /\ map shape (tokenizeLine (U "{a") [U "{a"] lineIndex atStartOnly now)
     = [(QURAN, U "{a")]
  /\ exec (masterRegex (sortedNames [U "*"])) (U "*")
     = Some (1, [None; None; None; Some (U "*")])
  /\ map shape (tokenizeLine (U "*") [U "*"] lineIndex atStartOnly now)
     = [(ITALIC, [])].
Proof.
  repeat split; destruct atStartOnly; vm_compute; reflexivity.
Qed.

(** ** C4: the longest dictionary entry wins *)

Lemma rmatch_lit (A : Type) (n : jstr) :
  forall (s : jstr) (cont : jstr -> option A),
    rmatch (lit n) s cont
    = if JS.startsWith s n then cont (skipn (length n) s) else None.
Proof.
  induction n as [|c n IH]; intros s cont.
  - destruct s; reflexivity.
  - destruct s as [|x s]; simpl; [reflexivity|].
    destruct (JS.char_eqb x c); simpl; [apply IH | reflexivity].
Qed.

Lemma matchAt_lit (n s : jstr) :
  matchAt (lit n) s = if JS.startsWith s n then Some (length n) else None.
Proof.
  unfold matchAt. rewrite rmatch_lit.
  destruct (JS.startsWith s n) eqn:E; [|reflexivity].
  apply startsWith_iff in E. destruct E as (rest & ->).
  rewrite length_skipn, length_app. f_equal. lia.
Qed.

Lemma matchAt_Alt (r1 r2 : regex) (s : jstr) :
  matchAt (Alt r1 r2) s
  = match matchAt r1 s with
    | Some n => Some n
    | None => matchAt r2 s
    end.
Proof. reflexivity. Qed.

(** The alternation of the escaped names matches the first name of the
    list that the text starts with. *)
Lemma matchAt_names (n : jstr) (ns : list jstr) (s : jstr) :
  matchAt (alts (escapeRegExp n) (map escapeRegExp ns)) s
  = option_map (@length char) (find (JS.startsWith s) (n :: ns)).
Proof.
  revert n. induction ns as [|n' ns IH]; intros n; simpl.
  - unfold escapeRegExp. rewrite matchAt_lit.
    destruct (JS.startsWith s n); reflexivity.
  - rewrite matchAt_Alt. unfold escapeRegExp at 1. rewrite matchAt_lit.
    destruct (JS.startsWith s n); [reflexivity|].
    rewrite IH. reflexivity.
Qed.

Lemma sort_insert_sorted (x : jstr) (l : list jstr) :
  StronglySorted byLength l ->
  StronglySorted byLength
    (JS.sort_insert (fun a b => (Z.of_nat (length b) - Z.of_nat (length a))%Z) x l).
Proof.
  induction 1 as [|y l Hs IH Hall]; simpl.
  - constructor; constructor.
  - destruct (Z.of_nat (length y) - Z.of_nat (length x) <=? 0)%Z eqn:E.
    + apply Z.leb_le in E.
      constructor; [constructor; assumption|].
      constructor; [unfold byLength; lia|].
      rewrite Forall_forall in *. intros z Hz. specialize (Hall z Hz).
      unfold byLength in *. lia.
    + apply Z.leb_gt in E.
      constructor; [assumption|].
      rewrite Forall_forall in *. intros z Hz.
      apply sort_insert_In in Hz. destruct Hz as [->|Hz].
      * unfold byLength. lia.
      * now apply Hall.
Qed.

Lemma sortNames_sorted (names : list jstr) :
  StronglySorted byLength (sortNames names).
Proof.
  unfold sortNames, JS.sort. induction names as [|n names IH]; simpl.
  - constructor.
  - now apply sort_insert_sorted.
Qed.

Lemma find_longest (f : jstr -> bool) (l : list jstr) (m : jstr) :
  StronglySorted byLength l ->
  find f l = Some m ->
  In m l /\ f m = true /\ forall y, In y l -> f y = true -> length y <= length m.
Proof.
  induction 1 as [|x l Hs IH Hall]; simpl; [discriminate|].
  destruct (f x) eqn:E.
  - intros H. inversion H; subst m. split; [now left|]. split; [assumption|].
    intros y [->|Hy] _; [lia|].
    rewrite Forall_forall in Hall. exact (Hall y Hy).
  - intros H. destruct (IH H) as (Hin & Hf & Hmax).
    split; [now right|]. split; [assumption|].
    intros y [->|Hy] Fy; [congruence | now apply Hmax].
Qed.

Lemma find_some_of (f : jstr -> bool) (l : list jstr) (x : jstr) :
  In x l -> f x = true -> exists m, find f l = Some m.
Proof.
  induction l as [|y l IH]; simpl; [contradiction|].
  intros [->|Hin] Fx.
  - rewrite Fx. eauto.
  - destruct (f y); eauto.
Qed.

Lemma namesRegexPart_some (sorted : list jstr) (x : jstr) :
  In x sorted -> x <> [] ->
  exists n ns, sorted = n :: ns
               /\ namesRegexPart sorted = Some (alts (escapeRegExp n) (map escapeRegExp ns)).
Proof.
  intros Hin Hne. destruct sorted as [|n ns]; [contradiction|].
  exists n, ns. split; [reflexivity|].
  destruct n as [|c n]; [|reflexivity].
  destruct ns as [|n' ns]; [|reflexivity].
  destruct Hin as [<-|[]]. congruence.
Qed.

(** C4, as the code has it.  Where the scan stands at a position at which
    none of the citation, bold and italic patterns matches and some
    non-empty dictionary entry occurs, the match is the capture of the
    names group, it is a dictionary entry occurring at that position, and
    no dictionary entry occurring there is longer: a shorter entry never
    wins over a longer one that starts at the same place.  With the
    dictionary and the line of the example the name span is the longer
    entry. *)
Theorem longest_name_first :
  (forall (names : list jstr) (s x : jstr),
      matchAt quranPattern s = None ->
      matchAt boldPattern s = None ->
      matchAt italicPattern s = None ->
      In x names -> x <> [] -> JS.startsWith s x = true ->
      exists m,
        exec (masterRegex (sortedNames names)) s
        = Some (length m, [None; None; None; Some m])
        /\ In m names /\ JS.startsWith s m = true
        /\ forall y, In y names -> JS.startsWith s y = true -> length y <= length m)
  /\ (forall (lineIndex : nat) (atStartOnly : bool) (now : nat -> Z),
         map v_part (visits (U "قال د. رشيد اليوم") [U "رشيد"; U "د. رشيد"]
                            lineIndex atStartOnly now)
         = [U "قال "; U "د. رشيد"; U " اليوم"]
         /\ map shape (tokenizeLine (U "قال د. رشيد اليوم") [U "رشيد"; U "د. رشيد"]
                                    lineIndex false now)
            = [(STANDARD, U "قال "); (NAME, U "د. رشيد"); (STANDARD, U " اليوم")]).
Proof.
  split.
  - intros names s x HQ HB HI Hin Hne Hx.
    unfold sortedNames.
    assert (Hin' : In x (sortNames names)) by now apply sortNames_In.
    destruct (namesRegexPart_some _ _ Hin' Hne) as (n & ns & Es & Er).
    destruct (find_some_of (JS.startsWith s) _ _ Hin' Hx) as (m & Hm).
    destruct (find_longest _ _ _ (sortNames_sorted names) Hm) as (Hmin & Hms & Hmax).
    exists m. split.
    + unfold masterRegex. rewrite Er. simpl. rewrite HQ, HB, HI.
      rewrite matchAt_names, <- Es, Hm. simpl.
      apply startsWith_iff in Hms. destruct Hms as (rest & ->).
      rewrite firstn_app, firstn_all, Nat.sub_diag. simpl. now rewrite app_nil_r.
    + split; [now apply sortNames_In|]. split; [assumption|].
      intros y Hy Fy. apply Hmax; [now apply sortNames_In | assumption].
  - intros lineIndex atStartOnly now. split.
    + destruct atStartOnly; vm_compute; reflexivity.
    + vm_compute. reflexivity.
Qed.

Lemma longest_name_first_witness :
  exists m,
    exec (masterRegex (sortedNames [U "رشيد"; U "رشيد علي"])) (U "رشيد علي قال")
    = Some (length m, [None; None; None; Some m])
    /\ In m [U "رشيد"; U "رشيد علي"] /\ JS.startsWith (U "رشيد علي قال") m = true
    /\ forall y, In y [U "رشيد"; U "رشيد علي"] ->
                 JS.startsWith (U "رشيد علي قال") y = true -> length y <= length m.
Proof.
  apply (proj1 longest_name_first [U "رشيد"; U "رشيد علي"] (U "رشيد علي قال") (U "رشيد")).
  - vm_compute. reflexivity.
  - vm_compute. reflexivity.
  - vm_compute. reflexivity.
  - vm_compute. left. reflexivity.
  - vm_compute. discriminate.
  - vm_compute. reflexivity.
Defined.

(** Both entries of that dictionary occur where that scan stands, and the
    longer one is captured. *)
Lemma longest_name_first_two_candidates :
  JS.startsWith (U "رشيد علي قال") (U "رشيد") = true
  /\ JS.startsWith (U "رشيد علي قال") (U "رشيد علي") = true
  /\ exec (masterRegex (sortedNames [U "رشيد"; U "رشيد علي"])) (U "رشيد علي قال")
     = Some (8, [None; None; None; Some (U "رشيد علي")]).
Proof. repeat split. Qed.

(** Across positions the left-most match wins, so the claim as the
    specification words it fails: a shorter entry that is a substring of a
    longer one, matched further left, takes the first code units of an
    occurrence of the longer one.  With the dictionary of the example, in
    the line where the shorter name is followed by a dot, a space and the
    shorter name again, the longer name occurs at offset 3; the shorter
    name is matched at offset 0 and its span overlaps that occurrence,
    which is then never matched. *)
Lemma longest_name_first_counterexample :
  ~ (forall (line : jstr) (names : list jstr) (lineIndex : nat) (atStartOnly : bool)
            (now : nat -> Z) (long short pre suf : jstr) (v : Visit),
        In long names -> In short names ->
        length short < length long -> JS.includes long short = true ->
        line = pre ++ long ++ suf ->
        In v (visits line names lineIndex atStartOnly now) ->
        v_part v = short ->
        v_cursor v + length short <= length pre
        \/ length pre + length long <= v_cursor v).
Proof.
  intros H.
  specialize (H (U "رشيد. رشيد") [U "رشيد"; U "د. رشيد"] 0 false noClock
                (U "د. رشيد") (U "رشيد") (U "رشي") []
                {| v_index := 4; v_cursor := 0; v_part := U "رشيد";
                   v_token := Build_TextToken (Build_TokenId 0 4 0%Z) (U "رشيد") NAME |}).
  destruct H as [H|H].
  - vm_compute. right. left. reflexivity.
  - vm_compute. left. reflexivity.
  - vm_compute. lia.
  - vm_compute. reflexivity.
  - vm_compute. reflexivity.
  - vm_compute. left. reflexivity.
  - reflexivity.
  - vm_compute in H. lia.
  - vm_compute in H. lia.
Qed.

(** The tokens of that line: the longer name is not among them. *)
Lemma longest_name_first_shadowed (lineIndex : nat) (now : nat -> Z) :
  JS.includes (U "رشيد. رشيد") (U "د. رشيد") = true
  /\ map shape (tokenizeLine (U "رشيد. رشيد") [U "رشيد"; U "د. رشيد"]
                             lineIndex false now)
     = [(NAME, U "رشيد"); (STANDARD, U ". "); (NAME, U "رشيد")].
Proof. split; vm_compute; reflexivity. Qed.

(** ** Lines that are one citation *)

Lemma quran_match_opens (s : jstr) (n : nat) :
  matchAt quranPattern s = Some n ->
  JS.startsWith s [c_lbrace] || JS.startsWith s [c_lornate]
  || JS.startsWith s [c_lbracket] = true.
Proof.
  destruct s as [|x s]; [discriminate|].
  unfold matchAt, quranPattern, versePattern, bracketPattern.
  cbn [rmatch JS.startsWith].
  destruct (JS.char_eqb x c_lbrace); [reflexivity|].
  destruct (JS.char_eqb x c_lornate); [reflexivity|].
  destruct (JS.char_eqb x c_lbracket); [reflexivity|].
  discriminate.
Qed.

Lemma split_whole_match (groups : list regex) (line : jstr) :
  line <> [] ->
  matchAt quranPattern line = Some (length line) ->
  split line (quranPattern :: groups)
  = Some [] :: Some line :: map (fun _ => None) groups ++ [Some []].
Proof.
  intros Hne HQ. unfold split.
  destruct line as [|c rest]; [congruence|].
  simp split_loop. simpl exec. rewrite HQ. simpl.
  rewrite firstn_all, skipn_all. simp split_loop. reflexivity.
Qed.

Lemma forEach_undefined text customNames lineIndex namesAtStartOnly now
      (B : Type) (l : list B) (tail : list (option jstr)) :
  forall index cur,
    forEach text customNames lineIndex namesAtStartOnly now
            (map (fun _ => None) l ++ tail) index cur
    = forEach text customNames lineIndex namesAtStartOnly now
              tail (length l + index) cur.
Proof.
  induction l as [|b l IH]; intros index cur; simpl; [reflexivity|].
  rewrite IH. f_equal. lia.
Qed.

(** A non-empty line that the citation pattern matches from its first to
    its last code unit is one QURAN token holding the line. *)
Lemma whole_line_citation (line : jstr) (names : list jstr) (lineIndex : nat)
      (atStartOnly : bool) (now : nat -> Z) :
  line <> [] ->
  matchAt quranPattern line = Some (length line) ->
  map shape (tokenizeLine line names lineIndex atStartOnly now) = [(QURAN, line)].
Proof.
  intros Hne HQ. unfold tokenizeLine, visits.
  destruct (isEmpty line) eqn:E; [destruct line; [congruence | discriminate]|].
  unfold masterRegex. cbn [app].
  rewrite split_whole_match by assumption.
  cbn [forEach isEmpty]. rewrite E.
  unfold classify at 1. rewrite (quran_match_opens _ _ HQ).
  rewrite forEach_undefined. reflexivity.
Qed.

(** ** C10: the tokens do not depend on the clock or the line index *)

Lemma forEach_shape text customNames namesAtStartOnly
      (lineIndex1 lineIndex2 : nat) (now1 now2 : nat -> Z)
      (parts : list (option jstr)) :
  forall index cur,
    map (fun v => shape (v_token v))
        (forEach text customNames lineIndex1 namesAtStartOnly now1 parts index cur)
    = map (fun v => shape (v_token v))
          (forEach text customNames lineIndex2 namesAtStartOnly now2 parts index cur).
Proof.
  induction parts as [|[part|] parts IH]; intros index cur; simpl.
  - reflexivity.
  - destruct (isEmpty part); [apply IH|].
    destruct (classify text customNames namesAtStartOnly part cur) as [ty ft].
    simpl. f_equal. apply IH.
  - apply IH.
Qed.

(** C10.  For a fixed line, dictionary and policy flag, two runs of the
    tokenizer, whatever the line index and whatever the clock reads when
    the ids are made, give token sequences of the same length with,
    position by position, the same type and the same text. *)
Theorem tokenize_deterministic
  (line : jstr) (names : list jstr) (atStartOnly : bool)
  (lineIndex1 lineIndex2 : nat) (now1 now2 : nat -> Z) :
  let run1 := tokenizeLine line names lineIndex1 atStartOnly now1 in
  let run2 := tokenizeLine line names lineIndex2 atStartOnly now2 in
  length run1 = length run2
  /\ forall i : nat,
       option_map shape (nth_error run1 i) = option_map shape (nth_error run2 i).
Proof.
  intros run1 run2.
  assert (E : map shape run1 = map shape run2).
  { subst run1 run2. unfold tokenizeLine, visits.
    destruct (isEmpty line); [reflexivity|].
    rewrite !map_map. apply forEach_shape. }
  split.
  - rewrite <- (length_map shape run1), <- (length_map shape run2). now rewrite E.
  - intros i. rewrite <- !nth_error_map. now rewrite E.
Qed.

(** ** The patterns against the grammar *)

Lemma until_spec (r : char) (s body rest : jstr) :
  until r s = Some (body, rest) <-> s = body ++ r :: rest /\ ~ In r body.
Proof.
  revert body. induction s as [|x s IH]; intros body; simpl.
  - split; [discriminate|]. intros (H & _). destruct body; discriminate.
  - destruct (JS.char_eqb x r) eqn:E.
    + apply char_eqb_eq in E. subst x. split.
      * intros H. inversion H; subst. split; [reflexivity | intros []].
      * intros (H & Hn). destruct body as [|y body].
        -- simpl in H. inversion H; subst. reflexivity.
        -- simpl in H. inversion H; subst. exfalso. apply Hn. now left.
    + assert (Hx : x <> r) by (intros ->; unfold JS.char_eqb in E; rewrite N.eqb_refl in E; discriminate).
      destruct (until r s) as [[b rs]|] eqn:U.
      * split.
        -- intros H. inversion H; subst.
           destruct (proj1 (IH b) eq_refl) as (-> & Hn).
           split; [reflexivity|]. intros [H1|H1]; [congruence | contradiction].
        -- intros (H & Hn). destruct body as [|y body]; simpl in H.
           ++ inversion H; congruence.
           ++ inversion H; subst.
              assert (U' : Some (b, rs) = Some (body, rest)).
              { apply IH. split; [reflexivity|]. intros Hb. apply Hn. now right. }
              inversion U'; subst. reflexivity.
      * split; [discriminate|].
        intros (H & Hn). destruct body as [|y body]; simpl in H.
        -- inversion H; congruence.
        -- inversion H; subst.
           assert (U' : None = Some (body, rest)).
           { apply IH. split; [reflexivity|]. intros Hb. apply Hn. now right. }
           discriminate.
Qed.

(** Greedy [[^r]*] before an [r]: the iteration stops at the first [r];
    giving characters back cannot help, the next one is never an [r]. *)
Lemma star_until (A : Type) (r : char) (cont : jstr -> option A) (s : jstr) :
  star_loop (NotChr r) s
    (fun s1 => match s1 with
               | x :: s' => if JS.char_eqb x r then cont s' else None
               | [] => None
               end)
  = match until r s with
    | Some (_, rest) => cont rest
    | None => None
    end.
Proof.
  induction s as [|x s IH]; simpl; [reflexivity|].
  destruct (JS.char_eqb x r) eqn:E; simpl; [reflexivity|].
  rewrite IH. destruct (until r s) as [[b rs]|]; [|reflexivity].
  destruct (cont rs); reflexivity.
Qed.

Lemma rmatch_plus_until (A : Type) (r : char) (R : regex) (cont : jstr -> option A)
      (s : jstr) :
  rmatch (Seq (Plus (NotChr r)) (Seq (Chr r) R)) s cont
  = match until r s with
    | Some (_ :: _, rest) => rmatch R rest cont
    | _ => None
    end.
Proof.
  destruct s as [|x s]; [reflexivity|].
  cbn [rmatch in_cls until].
  destruct (JS.char_eqb x r); cbn [negb]; [reflexivity|].
  rewrite (star_until A r (fun s' => rmatch R s' cont) s).
  destruct (until r s) as [[b rs]|]; reflexivity.
Qed.

Lemma rmatch_plus_until_end (A : Type) (r : char) (cont : jstr -> option A) (s : jstr) :
  rmatch (Seq (Plus (NotChr r)) (Chr r)) s cont
  = match until r s with
    | Some (_ :: _, rest) => cont rest
    | _ => None
    end.
Proof.
  destruct s as [|x s]; [reflexivity|].
  cbn [rmatch in_cls until].
  destruct (JS.char_eqb x r); cbn [negb]; [reflexivity|].
  rewrite (star_until A r cont s).
  destruct (until r s) as [[b rs]|]; reflexivity.
Qed.

Lemma enclosedPrefix_spec (l r : char) (s body rest : jstr) :
  enclosedPrefix l r s = Some (body, rest)
  <-> s = l :: body ++ r :: rest /\ body <> [] /\ ~ In r body.
Proof.
  unfold enclosedPrefix. destruct s as [|x s].
  - split; [discriminate | intros (H & _); discriminate].
  - destruct (JS.char_eqb x l) eqn:E.
    + apply char_eqb_eq in E. subst x.
      destruct (until r s) as [[[|y b] rs]|] eqn:U.
      * split; [discriminate|]. intros (H & Hne & Hn). inversion H as [H'].
        assert (U' : until r s = Some (body, rest)) by (apply until_spec; auto).
        rewrite U in U'. inversion U'; subst. congruence.
      * split.
        -- intros H. inversion H; subst.
           apply until_spec in U. destruct U as (-> & Hn).
           split; [reflexivity|]. split; [discriminate | assumption].
        -- intros (H & Hne & Hn). inversion H as [H'].
           assert (U' : until r s = Some (body, rest)) by (apply until_spec; auto).
           rewrite U in U'. inversion U'; subst. reflexivity.
      * split; [discriminate|]. intros (H & Hne & Hn). inversion H as [H'].
        assert (U' : until r s = Some (body, rest)) by (apply until_spec; auto).
        rewrite U in U'. discriminate.
    + split; [discriminate|]. intros (H & _). inversion H; subst.
      unfold JS.char_eqb in E. rewrite N.eqb_refl in E. discriminate.
Qed.

(** An opening delimiter, text free of the closing one, the closing
    delimiter: the pattern matches in one way only. *)
Lemma rmatch_enclosed (A : Type) (l r : char) (cont : jstr -> option A) (s : jstr) :
  rmatch (Seq (Chr l) (Seq (Plus (NotChr r)) (Chr r))) s cont
  = match enclosedPrefix l r s with
    | Some (_, rest) => cont rest
    | None => None
    end.
Proof.
  destruct s as [|x s]; [reflexivity|].
  change (rmatch (Seq (Chr l) (Seq (Plus (NotChr r)) (Chr r))) (x :: s) cont)
    with (if JS.char_eqb x l
          then rmatch (Seq (Plus (NotChr r)) (Chr r)) s cont else None).
  unfold enclosedPrefix.
  destruct (JS.char_eqb x l); [|reflexivity].
  rewrite rmatch_plus_until_end.
  destruct (until r s) as [[[|y b] rs]|]; reflexivity.
Qed.

Lemma rmatch_verse (A : Type) (cont : jstr -> option A) (s : jstr) :
  rmatch versePattern s cont
  = match enclosedPrefix c_lbrace c_rbrace s with
    | Some (_, rest) => cont rest
    | None =>
        match enclosedPrefix c_lornate c_rornate s with
        | Some (_, rest) => cont rest
        | None => None
        end
    end.
Proof.
  unfold versePattern.
  change (rmatch (Alt ?a ?b) s cont)
    with (match rmatch a s cont with Some x => Some x | None => rmatch b s cont end).
  rewrite !rmatch_enclosed.
  destruct (enclosedPrefix c_lbrace c_rbrace s) as [[b rest]|] eqn:E; [|reflexivity].
  destruct (cont rest); [reflexivity|].
  apply enclosedPrefix_spec in E. destruct E as (-> & _). reflexivity.
Qed.

Lemma star_loop_ext (A : Type) (k : cls) (c1 c2 : jstr -> option A) :
  (forall s, c1 s = c2 s) -> forall s, star_loop k s c1 = star_loop k s c2.
Proof.
  intros H. induction s as [|x s IH]; simpl; [apply H|].
  rewrite IH, H. reflexivity.
Qed.

Lemma enclosedPrefix_opens (l r x : char) (s : jstr) :
  JS.char_eqb x l = false -> enclosedPrefix l r (x :: s) = None.
Proof. intros H. unfold enclosedPrefix. now rewrite H. Qed.

Lemma whitespace_not_bracket (x : char) :
  JS.isWhiteSpace x = true -> JS.char_eqb x c_lbracket = false.
Proof.
  intros H. destruct (JS.char_eqb x c_lbracket) eqn:E; [|reflexivity].
  apply char_eqb_eq in E. subst x. discriminate.
Qed.

(** Greedy white space before a bracketed reference: the reference starts
    where the white space ends. *)
Lemma rmatch_citation (A : Type) (cont : jstr -> option A) (s : jstr) :
  rmatch citationPattern s cont
  = match enclosedPrefix c_lbracket c_rbracket (JS.trimStart s) with
    | Some (_, rest) => cont rest
    | None => None
    end.
Proof.
  unfold citationPattern, bracketPattern.
  change (rmatch (Seq (Star Space) ?b) s cont)
    with (star_loop Space s (fun s1 => rmatch b s1 cont)).
  rewrite (star_loop_ext A Space _ _ (rmatch_enclosed A c_lbracket c_rbracket cont)).
  induction s as [|x s IH]; [reflexivity|].
  cbn [star_loop in_cls JS.trimStart].
  destruct (JS.isWhiteSpace x) eqn:W; [|reflexivity].
  rewrite IH.
  rewrite (enclosedPrefix_opens c_lbracket c_rbracket x s (whitespace_not_bracket x W)).
  destruct (enclosedPrefix c_lbracket c_rbracket (JS.trimStart s)) as [[b rest]|];
    [|reflexivity].
  destruct (cont rest); reflexivity.
Qed.

Lemma trimStart_split (s : jstr) :
  exists ws, s = ws ++ JS.trimStart s /\ forallb JS.isWhiteSpace ws = true.
Proof.
  induction s as [|x s (ws & E & W)]; simpl.
  - exists []. auto.
  - destruct (JS.isWhiteSpace x) eqn:Wx.
    + exists (x :: ws). simpl. rewrite Wx, W. split; [now f_equal | reflexivity].
    + exists []. auto.
Qed.

Lemma trimStart_app (ws s : jstr) (x : char) :
  forallb JS.isWhiteSpace ws = true -> JS.isWhiteSpace x = false ->
  JS.trimStart (ws ++ x :: s) = x :: s.
Proof.
  intros W Hx. induction ws as [|y ws IH]; simpl.
  - now rewrite Hx.
  - simpl in W. apply andb_true_iff in W. destruct W as (Wy & W).
    rewrite Wy. now apply IH.
Qed.

(** The decomposer's pattern matches exactly the two-part texts. *)
Lemma verseMatch_twoPart (s : jstr) :
  (exists g, verseMatch s = Some g) <-> twoPart s.
Proof.
  unfold verseMatch. rewrite rmatch_verse.
  assert (K : forall q rest,
             s = q ++ rest ->
             (exists g,
                 match rmatch citationPattern rest
                         (fun s2 => if isEmpty s2
                                    then Some (firstn (length rest - length s2) rest)
                                    else None) with
                 | Some g2 => Some (firstn (length s - length rest) s, Some g2)
                 | None => if isEmpty rest
                           then Some (firstn (length s - length rest) s, None)
                           else None
                 end = Some g)
             <-> (rest = [] \/ spacedReference rest)).
  { intros q rest _. rewrite rmatch_citation.
    destruct (enclosedPrefix c_lbracket c_rbracket (JS.trimStart rest))
      as [[b rest2]|] eqn:E.
    - apply enclosedPrefix_spec in E. destruct E as (E & Hne & Hn).
      destruct (trimStart_split rest) as (ws & Ers & W).
      destruct rest2 as [|z rest2]; simpl.
      + split; [|eauto]. intros _. right. exists ws, (JS.trimStart rest).
        split; [assumption|]. split; [assumption|]. exists b. auto.
      + destruct rest as [|y rest]; [discriminate E|]. simpl.
        split; [intros (g & H); discriminate|].
        intros [H|(ws' & ref & Eref & W' & (b' & -> & Hne' & Hn'))]; [discriminate|].
        exfalso. rewrite Eref in E.
        rewrite (trimStart_app ws' _ c_lbracket W' eq_refl) in E.
        inversion E as [E'].
        assert (U1 : until c_rbracket (b' ++ [c_rbracket]) = Some (b', []))
          by (apply until_spec; auto).
        assert (U2 : until c_rbracket (b' ++ [c_rbracket]) = Some (b, z :: rest2))
          by (apply until_spec; auto).
        rewrite U1 in U2. discriminate.
    - destruct rest as [|y rest]; simpl.
      + split; [auto | eauto].
      + split; [intros (g & H); discriminate|].
        intros [H|(ws' & ref & Eref & W' & (b' & -> & Hne' & Hn'))]; [discriminate|].
        exfalso. rewrite Eref in E.
        rewrite (trimStart_app ws' _ c_lbracket W' eq_refl) in E.
        assert (E2 : enclosedPrefix c_lbracket c_rbracket (c_lbracket :: b' ++ [c_rbracket])
                     = Some (b', [])) by (apply enclosedPrefix_spec; auto).
        rewrite E in E2. discriminate. }
  destruct (enclosedPrefix c_lbrace c_rbrace s) as [[b rest]|] eqn:E1.
  - apply enclosedPrefix_spec in E1. destruct E1 as (E1 & Hne & Hn).
    rewrite (K (c_lbrace :: b ++ [c_rbrace]) rest)
      by (rewrite E1; simpl; now rewrite <- app_assoc).
    split.
    + intros H. exists (c_lbrace :: b ++ [c_rbrace]), rest.
      split; [rewrite E1; simpl; now rewrite <- app_assoc|].
      split; [left; exists b; auto | assumption].
    + intros (q & c & Es & [(b' & -> & Hne' & Hn')|(b' & -> & _)] & Hc).
      * rewrite E1 in Es. simpl in Es. rewrite <- app_assoc in Es. simpl in Es.
        inversion Es as [Es'].
        assert (U1 : until c_rbrace (b ++ c_rbrace :: rest) = Some (b, rest))
          by (apply until_spec; auto).
        assert (U2 : until c_rbrace (b ++ c_rbrace :: rest) = Some (b', c))
          by (rewrite Es'; apply until_spec; auto).
        rewrite U1 in U2. inversion U2; subst. assumption.
      * rewrite E1 in Es. discriminate Es.
  - destruct (enclosedPrefix c_lornate c_rornate s) as [[b rest]|] eqn:E2.
    + apply enclosedPrefix_spec in E2. destruct E2 as (E2 & Hne & Hn).
      rewrite (K (c_lornate :: b ++ [c_rornate]) rest)
        by (rewrite E2; simpl; now rewrite <- app_assoc).
      split.
      * intros H. exists (c_lornate :: b ++ [c_rornate]), rest.
        split; [rewrite E2; simpl; now rewrite <- app_assoc|].
        split; [right; exists b; auto | assumption].
      * intros (q & c & Es & [(b' & -> & _)|(b' & -> & Hne' & Hn')] & Hc).
        -- rewrite E2 in Es. discriminate Es.
        -- rewrite E2 in Es. simpl in Es. rewrite <- app_assoc in Es. simpl in Es.
           inversion Es as [Es'].
           assert (U1 : until c_rornate (b ++ c_rornate :: rest) = Some (b, rest))
             by (apply until_spec; auto).
           assert (U2 : until c_rornate (b ++ c_rornate :: rest) = Some (b', c))
             by (rewrite Es'; apply until_spec; auto).
           rewrite U1 in U2. inversion U2; subst. assumption.
    + split; [intros (g & H); discriminate|].
      intros (q & c & Es & [(b' & -> & Hne' & Hn')|(b' & -> & Hne' & Hn')] & _).
      * assert (E : enclosedPrefix c_lbrace c_rbrace s = Some (b', c)).
        { apply enclosedPrefix_spec. rewrite Es. simpl. rewrite <- app_assoc. auto. }
        rewrite E1 in E. discriminate.
      * assert (E : enclosedPrefix c_lornate c_rornate s = Some (b', c)).
        { apply enclosedPrefix_spec. rewrite Es. simpl. rewrite <- app_assoc. auto. }
        rewrite E2 in E. discriminate.
Qed.

(** ** C5: a quotation with its reference *)

(** C5, as the code has it.  For every dictionary and policy flag the line
    of the example is one QURAN token that keeps the line with its
    delimiters; rendered with the round brackets, the quoted content is
    the verse without its braces, the brackets are the round ones, and the
    reference is the second capture of the pattern: the bracketed
    reference together with the white space that precedes it. *)
Theorem citation_round_trip
  (names : list jstr) (lineIndex : nat) (atStartOnly : bool) (now : nat -> Z) :
  let line := U "{الله نور} [النور: 35]" in
  map shape (tokenizeLine line names lineIndex atStartOnly now) = [(QURAN, line)]
  /\ renderQuran round line
     = VerseView (U "(") (U "الله نور") (U ")") (U " [النور: 35]")
  /\ quoted (renderQuran round line) = Some (U "الله نور")
  /\ delimiters (renderQuran round line) = Some (U "(", U ")")
  /\ reference (renderQuran round line) = Some (U " [النور: 35]").
Proof.
  intros line. split.
  - apply whole_line_citation; [discriminate | vm_compute; reflexivity].
  - repeat split; vm_compute; reflexivity.
Qed.

(** The reference is not the bare bracketed text. *)
Lemma citation_reference_counterexample :
  reference (renderQuran round (U "{الله نور} [النور: 35]")) <> Some (U "[النور: 35]").
Proof. vm_compute. discriminate. Qed.

(** ** C8: the stand-alone reference *)

(** C8.  For every dictionary and policy flag the bracketed line of the
    example is one QURAN token; and a token text that starts with an
    opening and ends with a closing square bracket is rendered as the
    citation note, whatever the bracket style: no quoted content, the
    whole text as reference, no brackets applied. *)
Theorem standalone_reference :
  (forall (names : list jstr) (lineIndex : nat) (atStartOnly : bool) (now : nat -> Z),
      map shape (tokenizeLine (U "[النور: 35]") names lineIndex atStartOnly now)
      = [(QURAN, U "[النور: 35]")])
  /\ (forall (style : VerseBracketType) (tokenText : jstr),
         JS.startsWith tokenText [c_lbracket] = true ->
         JS.endsWith tokenText [c_rbracket] = true ->
         renderQuran style tokenText = CitationNote tokenText
         /\ quoted (renderQuran style tokenText) = None
         /\ reference (renderQuran style tokenText) = Some tokenText
         /\ delimiters (renderQuran style tokenText) = None).
Proof.
  split.
  - intros. apply whole_line_citation; [discriminate | vm_compute; reflexivity].
  - intros style tokenText Hs He. unfold renderQuran. rewrite Hs, He. simpl.
    repeat split.
Qed.

Lemma standalone_reference_witness :
  renderQuran quranic (U "[النور: 35]") = CitationNote (U "[النور: 35]")
  /\ quoted (renderQuran quranic (U "[النور: 35]")) = None
  /\ reference (renderQuran quranic (U "[النور: 35]")) = Some (U "[النور: 35]")
  /\ delimiters (renderQuran quranic (U "[النور: 35]")) = None.
Proof.
  apply (proj2 standalone_reference quranic (U "[النور: 35]")).
  - vm_compute. reflexivity.
  - vm_compute. reflexivity.
Defined.

(** ** C9: texts outside the grammar *)

Lemma verseMatch_none (s : jstr) : ~ twoPart s -> verseMatch s = None.
Proof.
  intros H. destruct (verseMatch s) as [g|] eqn:E; [|reflexivity].
  exfalso. apply H. apply verseMatch_twoPart. now exists g.
Qed.

(** C9, as the code has it.  A token text that is not a stand-alone
    reference, that does not conform to the two-part grammar, and that is
    not wrapped in a pair of braces or of ornate brackets is rendered whole
    as the quoted content, between the brackets of the style, with no
    reference. *)
Theorem decompose_fallback (style : VerseBracketType) (tokenText : jstr) :
  JS.startsWith tokenText [c_lbracket] && JS.endsWith tokenText [c_rbracket] = false ->
  ~ twoPart tokenText ->
  JS.startsWith tokenText [c_lbrace] && JS.endsWith tokenText [c_rbrace] = false ->
  JS.startsWith tokenText [c_lornate] && JS.endsWith tokenText [c_rornate] = false ->
  renderQuran style tokenText
  = VerseView (fst (getBrackets style)) tokenText (snd (getBrackets style)) []
  /\ quoted (renderQuran style tokenText) = Some tokenText
  /\ reference (renderQuran style tokenText) = None.
Proof.
  intros H1 H2 H3 H4. apply verseMatch_none in H2.
  assert (E : renderQuran style tokenText
              = VerseView (fst (getBrackets style)) tokenText (snd (getBrackets style)) []).
  { unfold renderQuran. rewrite H1, H2, H3, H4. simpl.
    destruct (getBrackets style). reflexivity. }
  rewrite E. repeat split.
Qed.

Lemma decompose_fallback_witness :
  renderQuran round (U "{abc") = VerseView (U "(") (U "{abc") (U ")") []
  /\ quoted (renderQuran round (U "{abc")) = Some (U "{abc")
  /\ reference (renderQuran round (U "{abc")) = None.
Proof.
  apply (decompose_fallback round (U "{abc")).
  - vm_compute. reflexivity.
  - intros H. apply verseMatch_twoPart in H. destruct H as (g & H).
    vm_compute in H. discriminate H.
  - vm_compute. reflexivity.
  - vm_compute. reflexivity.
Defined.

(** Without the last two conditions the claim fails: the text of two
    braces is outside the grammar, and its braces are stripped.  The
    tokenizer emits that text as a QURAN token for the line of two
    braces. *)
Lemma decompose_fallback_counterexample :
  ~ (forall (style : VerseBracketType) (tokenText : jstr),
        JS.startsWith tokenText [c_lbracket] && JS.endsWith tokenText [c_rbracket] = false ->
        ~ twoPart tokenText ->
        quoted (renderQuran style tokenText) = Some tokenText
        /\ reference (renderQuran style tokenText) = None).
Proof.
  intros H.
  assert (N : ~ twoPart (U "{}")).
  { intros T. apply verseMatch_twoPart in T. destruct T as (g & T).
    vm_compute in T. discriminate T. }
  destruct (H round (U "{}") eq_refl N) as (Hq & _).
  vm_compute in Hq. discriminate Hq.
Qed.

Lemma empty_braces_token (lineIndex : nat) (atStartOnly : bool) (now : nat -> Z) :
  map shape (tokenizeLine (U "{}") [] lineIndex atStartOnly now) = [(QURAN, U "{}")].
Proof. destruct atStartOnly; vm_compute; reflexivity. Qed.

(** ** Where the classification departs from the patterns *)

Lemma length_slice_inner (s : jstr) (a b : nat) :
  0 < b -> a + b < length s ->
  JS.slice s (Z.of_nat a) (- Z.of_nat b) <> [].
Proof.
  intros Hb Hl. rewrite slice_inner by assumption.
  intros H. apply (f_equal (@length char)) in H.
  rewrite length_firstn, length_skipn in H. simpl in H. lia.
Qed.

(** A token has an empty text only when its span is a lone star or
    underscore, or a pair of them; the token is then ITALIC. *)
Lemma empty_text_spans (line : jstr) (names : list jstr) (lineIndex : nat)
      (atStartOnly : bool) (now : nat -> Z) (v : Visit) :
  In v (visits line names lineIndex atStartOnly now) ->
  text (v_token v) = [] ->
  type (v_token v) = ITALIC
  /\ (v_part v = [c_star] \/ v_part v = [c_star; c_star]
      \/ v_part v = [c_underscore] \/ v_part v = [c_underscore; c_underscore]).
Proof.
  intros Hin Ht.
  destruct (visit_inv _ _ _ _ _ _ Hin) as (Hs & Hne & _).
  unfold shape in Hs. rewrite Ht in Hs. unfold classify in Hs.
  destruct (JS.startsWith (v_part v) [c_lbrace] || JS.startsWith (v_part v) [c_lornate]
            || JS.startsWith (v_part v) [c_lbracket]);
    [injection Hs as _ Hp; congruence|].
  destruct (JS.startsWith (v_part v) [c_star; c_star]
            && JS.endsWith (v_part v) [c_star; c_star]
            && (4 <? length (v_part v))) eqn:B.
  - exfalso. apply andb_true_iff in B. destruct B as (_ & L). apply Nat.ltb_lt in L.
    apply (length_slice_inner (v_part v) 2 2); [lia | simpl; lia|].
    simpl Z.of_nat.
    destruct (JS.some _ _), atStartOnly, (prefixIsBlank line (v_cursor v));
      injection Hs as _ Hp; symmetry; exact Hp.
  - destruct (JS.startsWith (v_part v) [c_star] && JS.endsWith (v_part v) [c_star]
              || JS.startsWith (v_part v) [c_underscore]
                 && JS.endsWith (v_part v) [c_underscore]) eqn:I.
    + injection Hs as Hty Hp. split; [assumption|].
      destruct (v_part v) as [|a [|b [|c rest]]] eqn:P.
      * congruence.
      * unfold JS.endsWith in I. simpl in I. rewrite !andb_true_r in I.
        apply orb_true_iff in I. rewrite !andb_true_iff, !char_eqb_eq in I.
        destruct I as [(-> & _)|(-> & _)]; auto.
      * unfold JS.endsWith in I. simpl in I. rewrite !andb_true_r in I.
        apply orb_true_iff in I. rewrite !andb_true_iff, !char_eqb_eq in I.
        destruct I as [(-> & ->)|(-> & ->)]; auto.
      * exfalso. apply (length_slice_inner (a :: b :: c :: rest) 1 1);
          [lia | simpl; lia | symmetry; exact Hp].
    + destruct (JS.arr_includes names (v_part v)), atStartOnly,
        (prefixIsBlank line (v_cursor v)); injection Hs as _ Hp; congruence.
Qed.

(** Whatever follows, a line that opens with a brace, an ornate bracket or
    a square bracket has a QURAN token first. *)
Lemma opening_delimiter_first_token (line : jstr) (names : list jstr) (lineIndex : nat)
      (atStartOnly : bool) (now : nat -> Z) :
  JS.startsWith line [c_lbrace] || JS.startsWith line [c_lornate]
  || JS.startsWith line [c_lbracket] = true ->
  exists t ts, tokenizeLine line names lineIndex atStartOnly now = t :: ts
               /\ type t = QURAN.
Proof.
  intros Hopen.
  pose proof (visits_tiles line names lineIndex atStartOnly now) as T.
  unfold tokenizeLine.
  destruct (visits line names lineIndex atStartOnly now) as [|v vs] eqn:V.
  - simpl in T. subst line. discriminate Hopen.
  - assert (Hin : In v (visits line names lineIndex atStartOnly now))
      by (rewrite V; now left).
    destruct (visit_inv _ _ _ _ _ _ Hin) as (Hs & _).
    simpl in T. destruct T as (_ & Hne & s' & E & _).
    exists (v_token v), (map v_token vs). split; [reflexivity|].
    assert (Q : JS.startsWith (v_part v) [c_lbrace]
                || JS.startsWith (v_part v) [c_lornate]
                || JS.startsWith (v_part v) [c_lbracket] = true).
    { destruct (v_part v) as [|x p]; [congruence|]. rewrite E in Hopen. exact Hopen. }
    unfold shape, classify in Hs. rewrite Q in Hs. now injection Hs.
Qed.

(** What the bold pattern matches. *)
Lemma bold_match_shape (s : jstr) (n : nat) :
  matchAt boldPattern s = Some n ->
  exists content rest,
    s = [c_star; c_star] ++ content ++ [c_star; c_star] ++ rest
    /\ content <> [] /\ ~ In c_star content /\ n = length content + 4.
Proof.
  unfold matchAt, boldPattern.
  destruct s as [|a [|b s']]; [discriminate | cbn; destruct (JS.char_eqb a c_star); discriminate |].
  change (rmatch (Seq (Chr c_star) (Seq (Chr c_star) ?R)) (a :: b :: s') ?k)
    with (if JS.char_eqb a c_star
          then if JS.char_eqb b c_star then rmatch R s' k else None
          else None).
  destruct (JS.char_eqb a c_star) eqn:Ea; [|discriminate].
  destruct (JS.char_eqb b c_star) eqn:Eb; [|discriminate].
  apply char_eqb_eq in Ea, Eb. subst a b.
  rewrite rmatch_plus_until.
  destruct (until c_star s') as [[[|y body] rest]|] eqn:U; try discriminate.
  apply until_spec in U. destruct U as (-> & Hn).
  destruct rest as [|c rest]; [discriminate|]. cbn [rmatch].
  destruct (JS.char_eqb c c_star) eqn:Ec; [|discriminate].
  apply char_eqb_eq in Ec. subst c. intros H. injection H as H.
  exists (y :: body), rest. split; [reflexivity|].
  split; [discriminate|]. split; [assumption|].
  repeat (rewrite ?length_app, ?length_cons in H). rewrite ?length_cons.
  destruct (length rest) as [|[|[|l]]]; lia.
Qed.

(** ** C6 and C7: the failing inputs *)

(** C6, at the failing input.  In a line that opens a brace and never
    closes it no pattern matches, [split] returns the line as its only
    part, and the token is typed QURAN, not STANDARD.  The same holds for
    an unclosed square bracket, and a line that is a lone star becomes an
    ITALIC token. *)
Theorem unclosed_delimiter_not_standard
  (lineIndex : nat) (atStartOnly : bool) (now : nat -> Z) :
  split (U "{abc") (masterRegex (sortedNames [])) = [Some (U "{abc")]
  /\ map shape (tokenizeLine (U "{abc") [] lineIndex atStartOnly now)
     = [(QURAN, U "{abc")]
  /\ split (U "[abc") (masterRegex (sortedNames [])) = [Some (U "[abc")]
  /\ map shape (tokenizeLine (U "[abc") [] lineIndex atStartOnly now)
     = [(QURAN, U "[abc")]
  /\ split (U "*") (masterRegex (sortedNames [])) = [Some (U "*")]
  /\ map type (tokenizeLine (U "*") [] lineIndex atStartOnly now) = [ITALIC].
Proof.
  repeat split; destruct atStartOnly; vm_compute; reflexivity.
Qed.

(** C7, at the failing input.  A line that is a lone star, or a lone
    underscore, matches no pattern and yields one ITALIC token whose text
    has length zero. *)
Theorem empty_run_emitted
  (lineIndex : nat) (atStartOnly : bool) (now : nat -> Z) :
  map shape (tokenizeLine (U "*") [] lineIndex atStartOnly now) = [(ITALIC, [])]
  /\ map shape (tokenizeLine (U "_") [] lineIndex atStartOnly now) = [(ITALIC, [])]
  /\ map shape (tokenizeLine (U "**") [] lineIndex atStartOnly now) = [(ITALIC, [])]
  /\ map shape (tokenizeLine (U "**a***") [] lineIndex atStartOnly now)
     = [(BOLD, U "a"); (ITALIC, [])].
Proof.
  repeat split; destruct atStartOnly; vm_compute; reflexivity.
Qed.

(** * Further properties *)

(** ** Substrings *)

Lemma includes_iff (s sub : jstr) :
  JS.includes s sub = true <-> exists pre suf, s = pre ++ sub ++ suf.
Proof.
  induction s as [|x s IH]; simpl.
  - rewrite orb_false_r, startsWith_iff. split.
    + intros (rest & H). exists [], rest. exact H.
    + intros (pre & suf & H). destruct pre; [|discriminate].
      exists suf. exact H.
  - rewrite orb_true_iff, startsWith_iff, IH. split.
    + intros [(rest & H)|(pre & suf & H)].
      * exists [], rest. exact H.
      * exists (x :: pre), suf. simpl. now rewrite H.
    + intros (pre & suf & H). destruct pre as [|y pre].
      * left. exists suf. exact H.
      * right. simpl in H. inversion H. now exists pre, suf.
Qed.

Lemma includes_refl (s : jstr) : JS.includes s s = true.
Proof. apply includes_iff. exists [], []. now rewrite app_nil_r. Qed.

Lemma slice_inner_substring (s : jstr) (a b : nat) :
  0 < b ->
  exists pre suf, s = pre ++ JS.slice s (Z.of_nat a) (- Z.of_nat b) ++ suf.
Proof.
  intros Hb. rewrite slice_inner by assumption.
  exists (firstn a s), (skipn (length s - b - a) (skipn a s)).
  now rewrite firstn_skipn, firstn_skipn.
Qed.

Ltac settle :=
  match goal with
  | |- _ /\ _ => split; settle
  | |- _ \/ _ => first [solve [left; settle] | solve [right; settle]]
  | |- _ -> _ => intros; settle
  | |- _ => solve [reflexivity | assumption | congruence]
  end.

(** The outcomes of [classify], branch by branch. *)
Lemma classify_cases (line : jstr) (names : list jstr) (atStartOnly : bool)
      (part : jstr) (cursor : nat) (ty : TokenType) (tx : jstr) :
  classify line names atStartOnly part cursor = (ty, tx) ->
  (ty = QURAN /\ tx = part)
  \/ (JS.startsWith part [c_star; c_star] = true /\ tx = JS.slice part 2 (-2)
      /\ ((ty = NAME /\ existsb (fun name => JS.includes tx name) names = true
           /\ (atStartOnly = true ->
               forallb JS.isWhiteSpace (firstn cursor line) = true))
          \/ ty = BOLD))
  \/ (ty = ITALIC /\ tx = JS.slice part 1 (-1))
  \/ (tx = part /\ In part names /\ ty = NAME
      /\ (atStartOnly = true -> forallb JS.isWhiteSpace (firstn cursor line) = true))
  \/ (tx = part /\ ty = STANDARD).
Proof.
  unfold classify.
  destruct (JS.startsWith part [c_lbrace] || JS.startsWith part [c_lornate]
            || JS.startsWith part [c_lbracket]).
  { intros H. injection H as <- <-. settle. }
  rewrite some_sortedNames, prefixIsBlank_spec.
  destruct (JS.startsWith part [c_star; c_star] && JS.endsWith part [c_star; c_star]
            && (4 <? length part)) eqn:B.
  - apply andb_true_iff in B. destruct B as (B & _).
    apply andb_true_iff in B. destruct B as (B & _).
    destruct (existsb _ names) eqn:C, atStartOnly,
      (forallb JS.isWhiteSpace (firstn cursor line)) eqn:W;
      intros H; injection H as <- <-; settle.
  - destruct (JS.startsWith part [c_star] && JS.endsWith part [c_star]
              || JS.startsWith part [c_underscore] && JS.endsWith part [c_underscore]).
    { intros H. injection H as <- <-. settle. }
    destruct (JS.arr_includes names part) eqn:I.
    + apply arr_includes_In in I.
      destruct atStartOnly, (forallb JS.isWhiteSpace (firstn cursor line)) eqn:W;
        intros H; injection H as <- <-; settle.
    + intros H. injection H as <- <-. settle.
Qed.

(** ** What a NAME token is made from *)

(** A token is a NAME only when its text contains a dictionary name, and,
    with the policy flag on, only when nothing but white space precedes
    its span in the line.  In particular an empty dictionary yields no NAME
    token. *)
Theorem name_token_origin
  (line : jstr) (names : list jstr) (lineIndex : nat) (atStartOnly : bool)
  (now : nat -> Z) (v : Visit) :
  In v (visits line names lineIndex atStartOnly now) ->
  type (v_token v) = NAME ->
  (exists name, In name names /\ JS.includes (text (v_token v)) name = true)
  /\ (atStartOnly = true ->
      forallb JS.isWhiteSpace (firstn (v_cursor v) line) = true).
Proof.
  intros Hin Hty.
  destruct (visit_inv _ _ _ _ _ _ Hin) as (Hs & _).
  unfold shape in Hs. symmetry in Hs.
  apply classify_cases in Hs.
  destruct Hs as [(H & _)|[(_ & _ & [(_ & C & W)|H])|[(H & _)|[(Htx & I & _ & W)|(_ & H)]]]];
    try congruence.
  - split; [|exact W].
    apply existsb_exists in C. destruct C as (name & Hn & Hi). now exists name.
  - split; [|exact W].
    exists (v_part v). split; [assumption|]. rewrite Htx. apply includes_refl.
Qed.

Lemma name_token_origin_witness :
  let line := U "مصطفى قال" in
  let v := {| v_index := 4; v_cursor := 0; v_part := U "مصطفى";
              v_token := Build_TextToken (Build_TokenId 0 4 0%Z) (U "مصطفى") NAME |} in
  (exists name, In name [U "مصطفى"] /\ JS.includes (text (v_token v)) name = true)
  /\ (true = true -> forallb JS.isWhiteSpace (firstn (v_cursor v) line) = true).
Proof.
  intros line v.
  apply (name_token_origin line [U "مصطفى"] 0 true noClock v).
  - vm_compute. left. reflexivity.
  - reflexivity.
Defined.

(** ** Tokens never invent text *)

Lemma token_text_in_span
  (line : jstr) (names : list jstr) (lineIndex : nat) (atStartOnly : bool)
  (now : nat -> Z) (v : Visit) :
  In v (visits line names lineIndex atStartOnly now) ->
  exists p s, v_part v = p ++ text (v_token v) ++ s.
Proof.
  intros Hin. destruct (visit_inv _ _ _ _ _ _ Hin) as (Hs & _).
  unfold shape in Hs. symmetry in Hs. apply classify_cases in Hs.
  destruct Hs as [(_ & H)|[(_ & H & _)|[(_ & H)|[(H & _)|(H & _)]]]]; rewrite H.
  - exists [], []. now rewrite app_nil_r.
  - exact (slice_inner_substring (v_part v) 2 2 ltac:(lia)).
  - exact (slice_inner_substring (v_part v) 1 1 ltac:(lia)).
  - exists [], []. now rewrite app_nil_r.
  - exists [], []. now rewrite app_nil_r.
Qed.

(** The text of every token is a contiguous piece of the line. *)
Theorem token_text_in_line
  (line : jstr) (names : list jstr) (lineIndex : nat) (atStartOnly : bool)
  (now : nat -> Z) (t : TextToken) :
  In t (tokenizeLine line names lineIndex atStartOnly now) ->
  exists pre suf, line = pre ++ text t ++ suf.
Proof.
  unfold tokenizeLine. intros Hin. apply in_map_iff in Hin.
  destruct Hin as (v & <- & Hin).
  destruct (visit_inv _ _ _ _ _ _ Hin) as (_ & _ & suf & E & _).
  destruct (token_text_in_span _ _ _ _ _ _ Hin) as (p & s & P).
  exists (firstn (v_cursor v) line ++ p), (s ++ suf).
  rewrite E at 1. rewrite P. now rewrite <- !app_assoc.
Qed.

Lemma token_text_in_line_witness :
  exists pre suf, U "قال **مصطفى**" = pre ++ U "مصطفى" ++ suf.
Proof.
  apply (token_text_in_line (U "قال **مصطفى**") [] 0 true noClock
           (Build_TextToken (Build_TokenId 0 2 0%Z) (U "مصطفى") BOLD)).
  vm_compute. right. left. reflexivity.
Defined.

(** ** The positional policy: one NAME per line *)

Lemma tiles_names_bound (vs : list Visit) :
  forall (pre s : jstr),
    tiles vs (length pre) s ->
    (forall v, In v vs -> type (v_token v) = NAME ->
               forallb JS.isWhiteSpace (firstn (v_cursor v) (pre ++ s)) = true
               /\ notBlank (v_part v)) ->
    length (filter isNAME (map v_token vs))
    <= (if forallb JS.isWhiteSpace pre then 1 else 0).
Proof.
  induction vs as [|v vs IH]; intros pre s T H; simpl.
  - destruct (forallb JS.isWhiteSpace pre); lia.
  - simpl in T. destruct T as (Hc & _ & s' & -> & T).
    rewrite <- length_app in T.
    assert (IH' := IH (pre ++ v_part v) s' T).
    rewrite <- app_assoc in IH'.
    specialize (IH' (fun w Hw => H w (or_intror Hw))).
    rewrite forallb_app in IH'.
    unfold isNAME at 1. destruct (type (v_token v)) eqn:Ty;
      try (destruct (forallb JS.isWhiteSpace pre); simpl in IH'; [|simpl];
           destruct (forallb JS.isWhiteSpace (v_part v)); simpl in *; lia).
    destruct (H v (or_introl eq_refl) Ty) as (W & NB).
    rewrite Hc, firstn_app, firstn_all, Nat.sub_diag in W. simpl in W.
    rewrite app_nil_r in W. rewrite W in *. unfold notBlank in NB.
    rewrite NB in IH'. simpl in *. lia.
Qed.

Lemma bold_part_not_blank (part : jstr) :
  JS.startsWith part [c_star; c_star] = true -> notBlank part.
Proof.
  intros H. apply startsWith_iff in H. destruct H as (rest & ->). reflexivity.
Qed.

(** With the policy flag on and a dictionary whose names are not white
    space only, a line has at most one NAME token. *)
Theorem at_most_one_name
  (line : jstr) (names : list jstr) (lineIndex : nat) (now : nat -> Z) :
  (forall n, In n names -> notBlank n) ->
  length (filter isNAME (tokenizeLine line names lineIndex true now)) <= 1.
Proof.
  intros Hn. unfold tokenizeLine.
  apply (tiles_names_bound (visits line names lineIndex true now) [] line).
  - apply visits_tiles.
  - intros v Hin Ty.
    destruct (visit_inv _ _ _ _ _ _ Hin) as (Hs & _).
    unfold shape in Hs. symmetry in Hs. apply classify_cases in Hs.
    destruct Hs as [(H & _)|[(S2 & _ & [(_ & _ & W)|H])|[(H & _)|[(_ & I & _ & W)|(_ & H)]]]];
      try congruence.
    + split; [now apply W | now apply bold_part_not_blank].
    + split; [now apply W | now apply Hn].
Qed.

Lemma at_most_one_name_witness :
  length (filter isNAME (tokenizeLine (U "مصطفى قال مصطفى") [U "مصطفى"] 0 true noClock))
  <= 1.
Proof.
  apply (at_most_one_name (U "مصطفى قال مصطفى") [U "مصطفى"] 0 noClock).
  intros n [<-|[]]. vm_compute. reflexivity.
Defined.

(** ** Lines without markers *)

Lemma opensSpan_false (c : char) :
  opensSpan c = false ->
  JS.char_eqb c c_lbrace = false /\ JS.char_eqb c c_lornate = false
  /\ JS.char_eqb c c_lbracket = false /\ JS.char_eqb c c_star = false
  /\ JS.char_eqb c c_underscore = false.
Proof.
  unfold opensSpan. simpl. rewrite orb_false_r, !orb_false_iff. tauto.
Qed.

(** No pattern matches where the text starts with another code unit than
    an opening brace or bracket, a star or an underscore. *)
Lemma patterns_need_opener (c : char) (s : jstr) :
  opensSpan c = false ->
  matchAt quranPattern (c :: s) = None
  /\ matchAt boldPattern (c :: s) = None
  /\ matchAt italicPattern (c :: s) = None.
Proof.
  intros H. apply opensSpan_false in H. destruct H as (H1 & H2 & H3 & H4 & H5).
  unfold matchAt, quranPattern, versePattern, bracketPattern, boldPattern, italicPattern.
  cbn [rmatch]. rewrite H1, H2, H3, H4, H5. auto.
Qed.

Lemma classify_plain_head (line : jstr) (names : list jstr) (atStartOnly : bool)
      (c : char) (p : jstr) (cursor : nat) :
  opensSpan c = false ->
  classify line names atStartOnly (c :: p) cursor
  = if JS.arr_includes names (c :: p)
    then (if atStartOnly
          then if forallb JS.isWhiteSpace (firstn cursor line) then NAME else STANDARD
          else NAME, c :: p)
    else (STANDARD, c :: p).
Proof.
  intros H. apply opensSpan_false in H. destruct H as (H1 & H2 & H3 & H4 & H5).
  unfold classify. cbn [JS.startsWith]. rewrite H1, H2, H3, H4, H5.
  cbn [andb orb]. rewrite prefixIsBlank_spec.
  destruct (JS.arr_includes names (c :: p)), atStartOnly,
    (forallb JS.isWhiteSpace (firstn cursor line)); reflexivity.
Qed.

Lemma split_loop_no_match (groups : list regex) (rest : jstr) :
  forall pend,
    (forall pre c s, rest = pre ++ c :: s -> exec groups (c :: s) = None) ->
    split_loop groups pend rest = [Some (pend ++ rest)].
Proof.
  induction rest as [|c rest IH]; intros pend H.
  - simp split_loop. now rewrite app_nil_r.
  - simp split_loop. rewrite (H [] c rest eq_refl). simpl.
    rewrite IH.
    + now rewrite <- app_assoc.
    + intros pre d s E. apply (H (c :: pre) d s). simpl. now rewrite E.
Qed.

Lemma find_none (f : jstr -> bool) (l : list jstr) :
  (forall x, In x l -> f x = false) -> find f l = None.
Proof.
  induction l as [|y l IH]; intros H; simpl; [reflexivity|].
  rewrite (H y (or_introl eq_refl)). apply IH. intros x Hx. apply H. now right.
Qed.

Lemma exec_names_none (sorted : list jstr) (s : jstr) :
  matchAt quranPattern s = None ->
  matchAt boldPattern s = None ->
  matchAt italicPattern s = None ->
  (forall n, In n sorted -> JS.startsWith s n = false) ->
  exec (masterRegex sorted) s = None.
Proof.
  intros HQ HB HI Hn. unfold masterRegex. simpl. rewrite HQ, HB, HI.
  destruct sorted as [|n ns]; [reflexivity|].
  assert (E : forall r, namesRegexPart (n :: ns) = Some r ->
                        r = alts (escapeRegExp n) (map escapeRegExp ns)).
  { intros r. simpl. destruct n; [destruct ns|]; intros H; inversion H; reflexivity. }
  destruct (namesRegexPart (n :: ns)) as [r|]; [|reflexivity].
  rewrite (E r eq_refl). simpl. rewrite matchAt_names, find_none by assumption.
  reflexivity.
Qed.

(** A non-empty line that holds no opening brace or bracket, no star and
    no underscore, and in which no dictionary name occurs, is one STANDARD
    token with the line as its text. *)
Theorem plain_line_passes_through
  (line : jstr) (names : list jstr) (lineIndex : nat) (atStartOnly : bool)
  (now : nat -> Z) :
  line <> [] ->
  forallb (fun c => negb (opensSpan c)) line = true ->
  (forall n, In n names -> JS.includes line n = false) ->
  map shape (tokenizeLine line names lineIndex atStartOnly now) = [(STANDARD, line)].
Proof.
  intros Hne Hplain Hnames. unfold tokenizeLine, visits.
  destruct line as [|c line'] eqn:EL; [congruence|]. rewrite <- EL in *.
  assert (Em : isEmpty line = false) by (rewrite EL; reflexivity). rewrite Em.
  unfold split. rewrite split_loop_no_match.
  - rewrite EL. simpl app. cbn [forEach isEmpty].
    assert (Hc : opensSpan c = false).
    { rewrite EL in Hplain. simpl in Hplain. apply andb_true_iff in Hplain.
      destruct Hplain as (Hc & _). now apply negb_true_iff in Hc. }
    rewrite classify_plain_head by assumption.
    destruct (JS.arr_includes names (c :: line')) eqn:I; [|reflexivity].
    apply arr_includes_In in I. apply Hnames in I.
    rewrite <- EL, includes_refl in I. discriminate.
  - intros pre d s E.
    assert (Hd : opensSpan d = false).
    { rewrite E, forallb_app in Hplain. apply andb_true_iff in Hplain.
      destruct Hplain as (_ & Hd). simpl in Hd. apply andb_true_iff in Hd.
      destruct Hd as (Hd & _). now apply negb_true_iff in Hd. }
    destruct (patterns_need_opener d s Hd) as (HQ & HB & HI).
    apply exec_names_none; try assumption.
    intros n Hn. apply (proj1 (sortNames_In names n)) in Hn. apply Hnames in Hn.
    destruct (JS.startsWith (d :: s) n) eqn:S; [|reflexivity].
    apply startsWith_iff in S. destruct S as (rest & S).
    assert (I : JS.includes line n = true).
    { apply includes_iff. exists pre, rest. now rewrite E, S. }
    congruence.
Qed.

Lemma plain_line_passes_through_witness :
  map shape (tokenizeLine (U "مرحبا بكم") [U "مصطفى"] 0 true noClock)
  = [(STANDARD, U "مرحبا بكم")].
Proof.
  apply (plain_line_passes_through (U "مرحبا بكم") [U "مصطفى"] 0 true noClock).
  - vm_compute. discriminate.
  - vm_compute. reflexivity.
  - intros n [<-|[]]. vm_compute. reflexivity.
Defined.

(** ** A line that begins with a name *)

Lemma exec_names_some (names : list jstr) (s x : jstr) :
  matchAt quranPattern s = None ->
  matchAt boldPattern s = None ->
  matchAt italicPattern s = None ->
  In x names -> x <> [] -> JS.startsWith s x = true ->
  exists m,
    exec (masterRegex (sortedNames names)) s = Some (length m, [None; None; None; Some m])
    /\ In m names /\ JS.startsWith s m = true /\ length x <= length m
    /\ forall y, In y names -> JS.startsWith s y = true -> length y <= length m.
Proof.
  intros HQ HB HI Hin Hne Hx. unfold sortedNames.
  assert (Hin' : In x (sortNames names)) by now apply sortNames_In.
  destruct (namesRegexPart_some _ _ Hin' Hne) as (n & ns & Es & Er).
  destruct (find_some_of (JS.startsWith s) _ _ Hin' Hx) as (m & Hm).
  destruct (find_longest _ _ _ (sortNames_sorted names) Hm) as (Hmin & Hms & Hmax).
  exists m. split.
  - unfold masterRegex. rewrite Er. simpl. rewrite HQ, HB, HI.
    rewrite matchAt_names, <- Es, Hm. simpl.
    apply startsWith_iff in Hms. destruct Hms as (rest & ->).
    rewrite firstn_app, firstn_all, Nat.sub_diag. simpl. now rewrite app_nil_r.
  - split; [now apply (proj1 (sortNames_In names m))|]. split; [assumption|].
    split; [now apply Hmax|].
    intros y Hy Fy. apply Hmax; [now apply sortNames_In | assumption].
Qed.

(** When a line begins with a dictionary name, and not with an opening
    brace or bracket, a star or an underscore, its first token is a NAME
    under either policy, and the text of that token is the longest
    dictionary name the line begins with. *)
Theorem line_starting_with_name
  (line : jstr) (names : list jstr) (lineIndex : nat) (atStartOnly : bool)
  (now : nat -> Z) (c : char) (rest x : jstr) :
  line = c :: rest -> opensSpan c = false ->
  In x names -> x <> [] -> JS.startsWith line x = true ->
  exists t ts,
    tokenizeLine line names lineIndex atStartOnly now = t :: ts
    /\ type t = NAME /\ In (text t) names /\ JS.startsWith line (text t) = true
    /\ forall y, In y names -> JS.startsWith line y = true ->
                 length y <= length (text t).
Proof.
  intros EL Hc Hin Hne Hx.
  destruct (patterns_need_opener c rest Hc) as (HQ & HB & HI). rewrite <- EL in *.
  destruct (exec_names_some names line x HQ HB HI Hin Hne Hx)
    as (m & He & Hm & Hms & Hlen & Hmax).
  assert (Hm0 : exists d m', m = d :: m').
  { destruct m as [|d m']; [|eauto]. destruct x; [congruence | simpl in Hlen; lia]. }
  destruct Hm0 as (d & m' & Em).
  assert (Hd : d = c).
  { rewrite Em, EL in Hms. simpl in Hms. apply andb_true_iff in Hms.
    destruct Hms as (Hd & _). apply char_eqb_eq in Hd. congruence. }
  unfold tokenizeLine, visits.
  assert (Emp : isEmpty line = false) by (rewrite EL; reflexivity). rewrite Emp.
  unfold split. rewrite EL. simp split_loop. rewrite <- EL, He.
  rewrite Em. cbn [length]. simpl split_loop_unfold_clause_2. rewrite <- Em.
  cbn [app forEach isEmpty].
  assert (Emp' : isEmpty m = false) by (rewrite Em; reflexivity). rewrite Emp'.
  assert (K : classify line names atStartOnly m 0 = (NAME, m)).
  { rewrite Em, Hd. rewrite classify_plain_head by assumption.
    rewrite <- Hd, <- Em. apply arr_includes_In in Hm. rewrite Hm.
    simpl. destruct atStartOnly; reflexivity. }
  rewrite K. cbn [map v_token].
  eexists _, _. split; [reflexivity|]. cbn [type text]. auto.
Qed.

Lemma line_starting_with_name_witness :
  exists t ts,
    tokenizeLine (U "د. رشيد قال") [U "رشيد"; U "د. رشيد"] 0 true noClock = t :: ts
    /\ type t = NAME /\ In (text t) [U "رشيد"; U "د. رشيد"]
    /\ JS.startsWith (U "د. رشيد قال") (text t) = true
    /\ forall y, In y [U "رشيد"; U "د. رشيد"] ->
                 JS.startsWith (U "د. رشيد قال") y = true ->
                 length y <= length (text t).
Proof.
  apply (line_starting_with_name (U "د. رشيد قال") [U "رشيد"; U "د. رشيد"] 0 true noClock
           1583%N (U ". رشيد قال") (U "د. رشيد")).
  - vm_compute. reflexivity.
  - vm_compute. reflexivity.
  - vm_compute. right. left. reflexivity.
  - vm_compute. discriminate.
  - vm_compute. reflexivity.
Defined.

(** ** Italic spans *)

Lemma classify_italic (line : jstr) (names : list jstr) (atStartOnly : bool)
      (m y : char) (content : jstr) (cursor : nat) :
  m = c_star \/ m = c_underscore ->
  JS.char_eqb y c_star = false \/ m = c_underscore ->
  classify line names atStartOnly ([m] ++ (y :: content) ++ [m]) cursor
  = (ITALIC, y :: content).
Proof.
  intros Hm Hy. unfold classify.
  assert (S : JS.slice ([m] ++ (y :: content) ++ [m]) 1 (-1) = y :: content).
  { apply (slice_strip [m] (y :: content) [m]). discriminate. }
  rewrite S.
  assert (E : JS.endsWith ([m] ++ (y :: content) ++ [m]) [m] = true).
  { rewrite (app_assoc [m] (y :: content)). apply endsWith_app. }
  assert (B : JS.startsWith ([m] ++ (y :: content) ++ [m]) [c_star; c_star] = false).
  { cbn [app JS.startsWith]. destruct Hy as [Hy| ->]; [rewrite Hy|];
      [apply andb_false_iff; right; reflexivity | reflexivity]. }
  rewrite B. cbn [andb].
  destruct Hm as [-> | ->]; rewrite E; reflexivity.
Qed.

(** A token whose span is an italic span (a star, a non-empty content
    without a star, a star; or an underscore, a non-empty content, an
    underscore) is ITALIC with the content as text, whatever the
    dictionary and the policy flag: an italic span is never promoted to a
    NAME, not even when its content is a dictionary name. *)
Theorem italic_span_classification
  (line : jstr) (names : list jstr) (lineIndex : nat) (atStartOnly : bool)
  (now : nat -> Z) (v : Visit) (content : jstr) :
  In v (visits line names lineIndex atStartOnly now) ->
  content <> [] ->
  (v_part v = [c_star] ++ content ++ [c_star] /\ ~ In c_star content)
  \/ v_part v = [c_underscore] ++ content ++ [c_underscore] ->
  type (v_token v) = ITALIC /\ text (v_token v) = content.
Proof.
  intros Hin Hne Hp.
  destruct (visit_inv _ _ _ _ _ _ Hin) as (Hs & _).
  unfold shape in Hs.
  destruct content as [|y content]; [congruence|].
  destruct Hp as [(Hp & Hn)|Hp]; rewrite Hp in Hs.
  - rewrite classify_italic in Hs; [now injection Hs | now left |].
    left. destruct (JS.char_eqb y c_star) eqn:E; [|reflexivity].
    apply char_eqb_eq in E. exfalso. apply Hn. now left.
  - rewrite classify_italic in Hs; [now injection Hs | now right | now right].
Qed.

Lemma italic_span_classification_witness :
  let v := {| v_index := 3; v_cursor := 0; v_part := U "*مصطفى*";
              v_token := Build_TextToken (Build_TokenId 0 3 0%Z) (U "مصطفى") ITALIC |} in
  type (v_token v) = ITALIC /\ text (v_token v) = U "مصطفى".
Proof.
  intros v.
  apply (italic_span_classification (U "*مصطفى* قال") [U "مصطفى"] 0 false noClock v
           (U "مصطفى")).
  - vm_compute. left. reflexivity.
  - vm_compute. discriminate.
  - left. split; [vm_compute; reflexivity|].
    vm_compute. intuition discriminate.
Defined.

(** ** Citations: what the pattern matches and how it is decomposed *)

Lemma firstn_matched (m rest : jstr) :
  firstn (length (m ++ rest) - length rest) (m ++ rest) = m.
Proof.
  rewrite length_app, Nat.add_sub, firstn_app, firstn_all, Nat.sub_diag.
  simpl. apply app_nil_r.
Qed.

Lemma spacedReference_at (rest b rest2 : jstr) :
  enclosedPrefix c_lbracket c_rbracket (JS.trimStart rest) = Some (b, rest2) ->
  exists c, rest = c ++ rest2 /\ spacedReference c.
Proof.
  intros E. apply enclosedPrefix_spec in E. destruct E as (E & Hne & Hn).
  destruct (trimStart_split rest) as (ws & Ers & W).
  exists (ws ++ c_lbracket :: b ++ [c_rbracket]). split.
  - rewrite Ers at 1. rewrite E. rewrite <- !app_assoc. simpl.
    now rewrite <- app_assoc.
  - exists ws, (c_lbracket :: b ++ [c_rbracket]).
    split; [reflexivity|]. split; [assumption|]. exists b. auto.
Qed.

Lemma opt_total (r : regex) (s : jstr) (f : jstr -> nat) :
  rmatch (Opt r) s (fun rest => Some (f rest)) <> None.
Proof.
  change (rmatch (Opt r) s (fun rest => Some (f rest)))
    with (match rmatch r s (fun rest => Some (f rest)) with
          | Some a => Some a
          | None => Some (f s)
          end).
  destruct (rmatch r s (fun rest => Some (f rest))); discriminate.
Qed.

Lemma quran_match_cases (s : jstr) (n : nat) :
  matchAt quranPattern s = Some n ->
  enclosed c_lbracket c_rbracket (firstn n s)
  \/ exists o cl body c,
       firstn n s = o :: body ++ cl :: c
       /\ ((o = c_lbrace /\ cl = c_rbrace) \/ (o = c_lornate /\ cl = c_rornate))
       /\ body <> [] /\ ~ In cl body /\ (c = [] \/ spacedReference c).
Proof.
  unfold matchAt, quranPattern.
  change (rmatch (Alt (Seq versePattern (Opt citationPattern)) bracketPattern) s ?K)
    with (match rmatch versePattern s (fun s1 => rmatch (Opt citationPattern) s1 K) with
          | Some x => Some x
          | None => rmatch bracketPattern s K
          end).
  rewrite rmatch_verse.
  assert (V : forall o cl body rest,
             ((o = c_lbrace /\ cl = c_rbrace) \/ (o = c_lornate /\ cl = c_rornate)) ->
             enclosedPrefix o cl s = Some (body, rest) ->
             rmatch (Opt citationPattern) rest
                    (fun r => Some (length s - length r)) = Some n ->
             exists c, firstn n s = o :: body ++ cl :: c
                       /\ body <> [] /\ ~ In cl body /\ (c = [] \/ spacedReference c)).
  { intros o cl body rest Hd E.
    apply enclosedPrefix_spec in E. destruct E as (E & Hne & Hn).
    change (rmatch (Opt citationPattern) rest ?K)
      with (match rmatch citationPattern rest K with
            | Some x => Some x
            | None => K rest
            end).
    rewrite rmatch_citation.
    destruct (enclosedPrefix c_lbracket c_rbracket (JS.trimStart rest))
      as [[b rest2]|] eqn:E2.
    - intros H. injection H as <-.
      destruct (spacedReference_at rest b rest2 E2) as (c & Ec & Hc).
      exists c. rewrite E, Ec.
      replace (o :: body ++ cl :: c ++ rest2)
        with ((o :: body ++ cl :: c) ++ rest2)
        by (simpl; rewrite <- app_assoc; reflexivity).
      rewrite firstn_matched. auto.
    - intros H. injection H as <-. exists [].
      rewrite E.
      replace (o :: body ++ cl :: rest) with ((o :: body ++ [cl]) ++ rest)
        by (simpl; rewrite <- app_assoc; reflexivity).
      rewrite firstn_matched. auto. }
  destruct (enclosedPrefix c_lbrace c_rbrace s) as [[body rest]|] eqn:E1.
  - intros H. right. exists c_lbrace, c_rbrace, body.
    assert (H' : rmatch (Opt citationPattern) rest
                        (fun r => Some (length s - length r)) = Some n).
    { cbv beta in H.
      destruct (rmatch (Opt citationPattern) rest
                       (fun r => Some (length s - length r))) eqn:O;
        [exact H | now apply opt_total in O]. }
    destruct (V c_lbrace c_rbrace body rest (or_introl (conj eq_refl eq_refl))
                E1 H') as (c & ? & ? & ? & ?).
    exists c. auto 6.
  - destruct (enclosedPrefix c_lornate c_rornate s) as [[body rest]|] eqn:E2.
    + intros H. right. exists c_lornate, c_rornate, body.
      assert (H' : rmatch (Opt citationPattern) rest
                          (fun r => Some (length s - length r)) = Some n).
      { cbv beta in H.
        destruct (rmatch (Opt citationPattern) rest
                         (fun r => Some (length s - length r))) eqn:O;
          [exact H | now apply opt_total in O]. }
      destruct (V c_lornate c_rornate body rest (or_intror (conj eq_refl eq_refl))
                  E2 H') as (c & ? & ? & ? & ?).
      exists c. auto 6.
    + unfold bracketPattern. rewrite rmatch_enclosed.
      destruct (enclosedPrefix c_lbracket c_rbracket s) as [[body rest]|] eqn:E3;
        [|discriminate].
      intros H. injection H as <-. left.
      apply enclosedPrefix_spec in E3. destruct E3 as (E & Hne & Hn).
      exists body. rewrite E.
      replace (c_lbracket :: body ++ c_rbracket :: rest)
        with ((c_lbracket :: body ++ [c_rbracket]) ++ rest)
        by (simpl; rewrite <- app_assoc; reflexivity).
      rewrite firstn_matched. auto.
Qed.

(** Every span the citation pattern matches is a bracketed reference or a
    text of the two-part grammar, so the renderer's pattern matches it or
    it is a stand-alone reference: the fallback is not reached for it. *)
Theorem citation_span_conforms (s : jstr) (n : nat) :
  matchAt quranPattern s = Some n ->
  enclosed c_lbracket c_rbracket (firstn n s) \/ twoPart (firstn n s).
Proof.
  intros H. destruct (quran_match_cases s n H)
    as [E|(o & cl & body & c & E & Hd & Hne & Hn & Hc)]; [now left|].
  right. exists (o :: body ++ [cl]), c. split.
  - rewrite E. simpl. now rewrite <- app_assoc.
  - split; [|assumption].
    destruct Hd as [(-> & ->)|(-> & ->)]; [left | right]; exists body; auto.
Qed.

Lemma citation_span_conforms_witness :
  enclosed c_lbracket c_rbracket (firstn 7 (U "{a} [b] c"))
  \/ twoPart (firstn 7 (U "{a} [b] c")).
Proof.
  apply (citation_span_conforms (U "{a} [b] c") 7).
  vm_compute. reflexivity.
Defined.

Lemma spacedReference_trimStart (c : jstr) :
  spacedReference c ->
  exists b, enclosedPrefix c_lbracket c_rbracket (JS.trimStart c) = Some (b, [])
            /\ c <> [].
Proof.
  intros (ws & ref & -> & W & (b & -> & Hne & Hn)).
  exists b. split.
  - rewrite (trimStart_app ws _ c_lbracket W eq_refl).
    apply enclosedPrefix_spec. auto.
  - destruct ws; discriminate.
Qed.

(** The two captures of the renderer's pattern on a text of the two-part
    grammar: the quotation, and the reference with the white space before
    it (no second capture when there is no reference). *)
Lemma verseMatch_value (o cl : char) (body c : jstr) :
  (o = c_lbrace /\ cl = c_rbrace) \/ (o = c_lornate /\ cl = c_rornate) ->
  body <> [] -> ~ In cl body -> c = [] \/ spacedReference c ->
  verseMatch (o :: body ++ cl :: c)
  = Some (o :: body ++ [cl], if isEmpty c then None else Some c).
Proof.
  intros Hd Hne Hn Hc.
  set (t := o :: body ++ cl :: c).
  assert (Et : t = (o :: body ++ [cl]) ++ c)
    by (unfold t; simpl; now rewrite <- app_assoc).
  assert (EP : enclosedPrefix o cl t = Some (body, c))
    by (apply enclosedPrefix_spec; auto).
  unfold verseMatch. rewrite rmatch_verse.
  assert (K : match rmatch citationPattern c
                      (fun s2 => if isEmpty s2
                                 then Some (firstn (length c - length s2) c)
                                 else None) with
              | Some g2 => Some (firstn (length t - length c) t, Some g2)
              | None => if isEmpty c
                        then Some (firstn (length t - length c) t, None)
                        else None
              end
              = Some (o :: body ++ [cl], if isEmpty c then None else Some c)).
  { assert (F : firstn (length t - length c) t = o :: body ++ [cl])
      by (rewrite Et; apply firstn_matched).
    rewrite rmatch_citation, F.
    destruct Hc as [-> | Hc].
    - reflexivity.
    - destruct (spacedReference_trimStart c Hc) as (b & -> & Hc0).
      simpl. rewrite Nat.sub_0_r, firstn_all.
      destruct c; [congruence | reflexivity]. }
  destruct Hd as [(-> & ->)|(-> & ->)].
  - rewrite EP. exact K.
  - assert (E0 : enclosedPrefix c_lbrace c_rbrace t = None) by reflexivity.
    rewrite E0, EP. exact K.
Qed.

Lemma renderQuran_twoPart
  (style : VerseBracketType) (o cl : char) (body c : jstr) :
  (o = c_lbrace /\ cl = c_rbrace) \/ (o = c_lornate /\ cl = c_rornate) ->
  body <> [] -> ~ In cl body -> c = [] \/ spacedReference c ->
  renderQuran style (o :: body ++ cl :: c)
  = VerseView (fst (getBrackets style)) body (snd (getBrackets style)) c.
Proof.
  intros Hd Hne Hn Hc. unfold renderQuran.
  assert (N : JS.startsWith (o :: body ++ cl :: c) [c_lbracket] = false)
    by (destruct Hd as [(-> & _)|(-> & _)]; reflexivity).
  rewrite N. cbn [andb].
  rewrite (verseMatch_value o cl body c Hd Hne Hn Hc).
  assert (S : JS.slice (o :: body ++ [cl]) 1 (-1) = body).
  { apply (slice_strip [o] body [cl]). discriminate. }
  assert (W : (JS.startsWith (o :: body ++ [cl]) [c_lbrace]
               && JS.endsWith (o :: body ++ [cl]) [c_rbrace])
              || (JS.startsWith (o :: body ++ [cl]) [c_lornate]
                  && JS.endsWith (o :: body ++ [cl]) [c_rornate]) = true).
  { assert (E : JS.endsWith (o :: body ++ [cl]) [cl] = true)
      by (apply (endsWith_app (o :: body) [cl])).
    destruct Hd as [(-> & ->)|(-> & ->)]; rewrite E; reflexivity. }
  rewrite W, S. destruct (getBrackets style) as [l r]. simpl.
  destruct c; reflexivity.
Qed.

(** A text of the two-part grammar is decomposed into the quotation
    without its delimiters and the reference with the white space before
    it, and shown between the brackets of the chosen style: the
    delimiters of the source never reach the display. *)
Theorem decompose_conforming
  (style : VerseBracketType) (o cl : char) (body c : jstr) :
  (o = c_lbrace /\ cl = c_rbrace) \/ (o = c_lornate /\ cl = c_rornate) ->
  body <> [] -> ~ In cl body -> c = [] \/ spacedReference c ->
  let v := renderQuran style (o :: body ++ cl :: c) in
  v = VerseView (fst (getBrackets style)) body (snd (getBrackets style)) c
  /\ quoted v = Some body
  /\ reference v = (if isEmpty c then None else Some c)
  /\ delimiters v = Some (getBrackets style)
  /\ viewText v = fst (getBrackets style) ++ body ++ snd (getBrackets style) ++ c.
Proof.
  intros Hd Hne Hn Hc v. subst v.
  rewrite (renderQuran_twoPart style o cl body c Hd Hne Hn Hc).
  split; [reflexivity|]. split; [reflexivity|].
  split; [destruct c; reflexivity|].
  split; [destruct (getBrackets style); reflexivity | reflexivity].
Qed.

Lemma decompose_conforming_witness :
  let v := renderQuran angle (U "﴿نور﴾ [24]") in
  v = VerseView (fst (getBrackets angle)) (U "نور") (snd (getBrackets angle)) (U " [24]")
  /\ quoted v = Some (U "نور")
  /\ reference v = (if isEmpty (U " [24]") then None else Some (U " [24]"))
  /\ delimiters v = Some (getBrackets angle)
  /\ viewText v
     = fst (getBrackets angle) ++ U "نور" ++ snd (getBrackets angle) ++ U " [24]".
Proof.
  apply (decompose_conforming angle c_lornate c_rornate (U "نور") (U " [24]")).
  - right. split; reflexivity.
  - vm_compute. discriminate.
  - vm_compute. intuition discriminate.
  - right. exists (U " "), (U "[24]"). split; [reflexivity|].
    split; [reflexivity|]. exists (U "24"). split; [reflexivity|].
    split; [vm_compute; discriminate | vm_compute; intuition discriminate].
Defined.

(** Shown with the brackets it was written with, a citation span is
    displayed as it was written: a braced quotation with the curly style,
    an ornate one with the quranic style, a bracketed reference with any
    style. *)
Theorem citation_display_identity (s : jstr) (n : nat) :
  matchAt quranPattern s = Some n ->
  let t := firstn n s in
  (JS.startsWith t [c_lbrace] = true -> viewText (renderQuran curly t) = t)
  /\ (JS.startsWith t [c_lornate] = true -> viewText (renderQuran quranic t) = t)
  /\ (JS.startsWith t [c_lbracket] = true ->
      forall style, viewText (renderQuran style t) = t).
Proof.
  intros H t. subst t.
  destruct (quran_match_cases s n H)
    as [(b & E & Hne & Hn)|(o & cl & body & c & E & Hd & Hne & Hn & Hc)];
    rewrite E.
  - split; [discriminate|]. split; [discriminate|].
    intros _ style. unfold renderQuran.
    change (JS.startsWith (c_lbracket :: b ++ [c_rbracket]) [c_lbracket]) with true.
    assert (En : JS.endsWith (c_lbracket :: b ++ [c_rbracket]) [c_rbracket] = true)
      by (apply (endsWith_app (c_lbracket :: b) [c_rbracket])).
    rewrite En. reflexivity.
  - rewrite !(renderQuran_twoPart _ o cl body c Hd Hne Hn Hc).
    destruct Hd as [(-> & ->)|(-> & ->)].
    + split; [reflexivity|]. split; discriminate.
    + split; [discriminate|]. split; [reflexivity | discriminate].
Qed.

Lemma citation_display_identity_witness :
  let t := firstn 7 (U "{a} [b] c") in
  (JS.startsWith t [c_lbrace] = true -> viewText (renderQuran curly t) = t)
  /\ (JS.startsWith t [c_lornate] = true -> viewText (renderQuran quranic t) = t)
  /\ (JS.startsWith t [c_lbracket] = true ->
      forall style, viewText (renderQuran style t) = t).
Proof.
  apply (citation_display_identity (U "{a} [b] c") 7).
  vm_compute. reflexivity.
Defined.

(** ** The source of the names group *)

Lemma existsb_eqb_In (c : char) (l : list char) :
  existsb (JS.char_eqb c) l = true <-> In c l.
Proof.
  rewrite existsb_exists. split.
  - intros (x & Hx & E). apply char_eqb_eq in E. now subst.
  - intros H. exists c. split; [assumption | now apply char_eqb_eq].
Qed.

(** The class of [escapeRegExp] is the set of syntax characters. *)
Lemma escapeClass_syntax (c : char) : escapeClass c = isSyntaxCharacter c.
Proof.
  apply eq_true_iff_eq. unfold escapeClass, isSyntaxCharacter.
  rewrite !existsb_eqb_In. simpl. tauto.
Qed.

Lemma readLiterals_escaped (s : jstr) :
  forall tail a alts_,
    readLiterals tail = Some (a :: alts_) ->
    readLiterals (escapeRegExpSource s ++ tail) = Some ((s ++ a) :: alts_).
Proof.
  induction s as [|c s IH]; intros tail a alts_ H; [exact H|].
  unfold escapeRegExpSource. cbn [flat_map]. fold (escapeRegExpSource s).
  specialize (IH tail a alts_ H).
  destruct (escapeClass c) eqn:E.
  - cbn [app readLiterals].
    change (JS.char_eqb c_backslash c_backslash) with true. cbn iota.
    rewrite <- escapeClass_syntax, E, IH. reflexivity.
  - cbn [app readLiterals].
    assert (Eb : JS.char_eqb c c_backslash = false).
    { destruct (JS.char_eqb c c_backslash) eqn:B; [|reflexivity].
      apply char_eqb_eq in B. subst c. discriminate E. }
    assert (Ebar : JS.char_eqb c c_bar = false).
    { destruct (JS.char_eqb c c_bar) eqn:B; [|reflexivity].
      apply char_eqb_eq in B. subst c. discriminate E. }
    rewrite Eb, Ebar, <- escapeClass_syntax, E, IH. reflexivity.
Qed.

(** Escaped and joined with bars, a non-empty list of names reads back as
    the alternation of exactly these names, each one a literal: no code
    unit of a name is left with a meaning in the pattern, and no bar
    inside a name separates alternatives. *)
Theorem escaped_names_read_back (names : list jstr) :
  names <> [] ->
  readLiterals (namesRegexSource names) = Some names.
Proof.
  unfold namesRegexSource.
  induction names as [|n names IH]; intros Hne; [congruence|].
  destruct names as [|n' names].
  - simpl. rewrite <- (app_nil_r (escapeRegExpSource n)).
    rewrite (readLiterals_escaped n [] [] []); [|reflexivity].
    now rewrite app_nil_r.
  - change (join [c_bar] (map escapeRegExpSource (n :: n' :: names)))
      with (escapeRegExpSource n
            ++ c_bar :: join [c_bar] (map escapeRegExpSource (n' :: names))).
    rewrite (readLiterals_escaped n _ [] (n' :: names)).
    + now rewrite app_nil_r.
    + cbn [readLiterals].
      change (JS.char_eqb c_bar c_backslash) with false.
      change (JS.char_eqb c_bar c_bar) with true. cbn iota.
      rewrite IH by discriminate. reflexivity.
Qed.

Lemma escaped_names_read_back_witness :
  readLiterals (namesRegexSource [U "د. رشيد"; U "a|b"; U "[x]"])
  = Some [U "د. رشيد"; U "a|b"; U "[x]"].
Proof.
  apply (escaped_names_read_back [U "د. رشيد"; U "a|b"; U "[x]"]). discriminate.
Defined.

Lemma escapeRegExpSource_nil (s : jstr) : escapeRegExpSource s = [] -> s = [].
Proof.
  destruct s as [|c s]; [reflexivity|].
  unfold escapeRegExpSource. simpl. destruct (escapeClass c); discriminate.
Qed.

(** The names group is left out of the master pattern exactly when the
    joined source is the empty string, which JavaScript takes as false:
    for no name at all and for the one empty name. *)
Theorem names_group_presence (sortedNames_ : list jstr) :
  namesRegexPart sortedNames_ = None <-> namesRegexSource sortedNames_ = [].
Proof.
  unfold namesRegexSource. destruct sortedNames_ as [|n [|n' ns]].
  - simpl. tauto.
  - destruct n as [|c n].
    + simpl. tauto.
    + split; [discriminate|]. intros H. apply escapeRegExpSource_nil in H.
      discriminate.
  - split.
    + destruct n; discriminate.
    + change (join [c_bar] (map escapeRegExpSource (n :: n' :: ns)))
        with (escapeRegExpSource n
              ++ c_bar :: join [c_bar] (map escapeRegExpSource (n' :: ns))).
      intros H. apply app_eq_nil in H. destruct H as (_ & H). discriminate.
Qed.

Lemma names_group_presence_witness : namesRegexPart [[]] = None.
Proof. apply (proj2 (names_group_presence [[]])). reflexivity. Defined.

(** ** Token ids *)

Lemma forEach_indices text names lineIndex namesAtStartOnly now
      (parts : list (option jstr)) :
  forall index cur,
    StronglySorted lt
      (map v_index (forEach text names lineIndex namesAtStartOnly now parts index cur))
    /\ Forall (fun v => index <= v_index v
                        /\ id (v_token v)
                           = Build_TokenId lineIndex (v_index v) (now (v_index v)))
              (forEach text names lineIndex namesAtStartOnly now parts index cur).
Proof.
  induction parts as [|[part|] parts IH]; intros index cur; simpl.
  - split; constructor.
  - destruct (IH (S index) cur) as (S1 & F1).
    destruct (isEmpty part).
    + split; [assumption|]. eapply Forall_impl; [|exact F1].
      simpl. intros v (H & E). split; [lia | assumption].
    + destruct (classify text names namesAtStartOnly part cur) as [ty ft].
      destruct (IH (S index) (cur + length part)) as (S2 & F2).
      split.
      * simpl. constructor; [assumption|].
        rewrite Forall_map. eapply Forall_impl; [|exact F2].
        simpl. intros v (H & _). lia.
      * constructor; [simpl; auto|].
        eapply Forall_impl; [|exact F2]. simpl. intros v (H & E).
        split; [lia | assumption].
  - destruct (IH (S index) cur) as (S1 & F1).
    split; [assumption|]. eapply Forall_impl; [|exact F1].
    simpl. intros v (H & E). split; [lia | assumption].
Qed.

Lemma StronglySorted_lt_NoDup (l : list nat) : StronglySorted lt l -> NoDup l.
Proof.
  induction 1 as [|x l Hs IH Hall]; constructor; [|assumption].
  intros Hin. rewrite Forall_forall in Hall. specialize (Hall x Hin). lia.
Qed.

(** ** [parseText] *)

Lemma splitLines_nonempty (text : jstr) : splitLines text <> [].
Proof.
  destruct text as [|c text]; simpl; [discriminate|].
  destruct (JS.char_eqb c c_newline); [discriminate|].
  destruct (splitLines text); discriminate.
Qed.

Lemma splitLines_join (text : jstr) : join [c_newline] (splitLines text) = text.
Proof.
  induction text as [|c text IH]; [reflexivity|].
  pose proof (splitLines_nonempty text) as Hne.
  simpl. destruct (JS.char_eqb c c_newline) eqn:E.
  - apply char_eqb_eq in E. subst c.
    destruct (splitLines text) as [|l ls] eqn:S; [congruence|].
    change (join [c_newline] ([] :: l :: ls))
      with ([] ++ [c_newline] ++ join [c_newline] (l :: ls)).
    now rewrite IH.
  - destruct (splitLines text) as [|l ls] eqn:S; [congruence|].
    destruct ls as [|l' ls].
    + simpl in *. now rewrite IH.
    + change (join [c_newline] ((c :: l) :: l' :: ls))
        with (c :: (l ++ [c_newline] ++ join [c_newline] (l' :: ls))).
      change (join [c_newline] (l :: l' :: ls))
        with (l ++ [c_newline] ++ join [c_newline] (l' :: ls)) in IH.
      now rewrite IH.
Qed.

Lemma splitLines_length (text : jstr) :
  length (splitLines text) = S (length (filter (fun c => JS.char_eqb c c_newline) text)).
Proof.
  induction text as [|c text IH]; [reflexivity|].
  simpl. destruct (JS.char_eqb c c_newline); simpl.
  - now rewrite IH.
  - destruct (splitLines text); simpl in *; lia.
Qed.

Lemma splitLines_no_newline (text : jstr) :
  Forall (fun line => ~ In c_newline line) (splitLines text).
Proof.
  induction text as [|c text IH]; simpl.
  - constructor; [intros [] | constructor].
  - destruct (JS.char_eqb c c_newline) eqn:E.
    + constructor; [intros [] | assumption].
    + destruct (splitLines text) as [|l ls]; [constructor; [|constructor]|].
      * intros [H|[]]. subst c. discriminate E.
      * inversion IH; subst. constructor; [|assumption].
        intros [H|H]; [subst c; discriminate E | contradiction].
Qed.

Lemma mapFrom_length (A B : Type) (f : A -> nat -> B) (arr : list A) :
  forall index, length (mapFrom f index arr) = length arr.
Proof. induction arr; intros; simpl; auto. Qed.

Lemma mapFrom_map (A B C : Type) (f : A -> nat -> B) (g : B -> C) (arr : list A) :
  forall index, map g (mapFrom f index arr) = mapFrom (fun x i => g (f x i)) index arr.
Proof. induction arr as [|x arr IH]; intros; simpl; [reflexivity | now rewrite IH]. Qed.

Lemma mapFrom_ext (A B : Type) (f g : A -> nat -> B) (arr : list A) :
  (forall x i, In x arr -> f x i = g x i) ->
  forall index, mapFrom f index arr = mapFrom g index arr.
Proof.
  induction arr as [|x arr IH]; intros H index; simpl; [reflexivity|].
  rewrite (H x index (or_introl eq_refl)). f_equal. apply IH.
  intros y i Hy. apply H. now right.
Qed.

Lemma mapFrom_const (A B : Type) (f : A -> B) (arr : list A) :
  forall index, mapFrom (fun x _ => f x) index arr = map f arr.
Proof. induction arr as [|x arr IH]; intros; simpl; [reflexivity | now rewrite IH]. Qed.

Lemma mapFrom_In (A B : Type) (f : A -> nat -> B) (arr : list A) (y : B) :
  forall index, In y (mapFrom f index arr) -> exists x i, In x arr /\ y = f x i.
Proof.
  induction arr as [|x arr IH]; intros index H; simpl in H; [contradiction|].
  destruct H as [<-|H].
  - exists x, index. split; [now left | reflexivity].
  - destruct (IH _ H) as (x' & i & Hx & E). exists x', i. split; [now right | assumption].
Qed.

(** A text with [k] line feeds gives [k + 1] paragraphs, empty lines
    included; the empty text gives none. *)
Theorem parseText_paragraph_count
  (text : jstr) (names : list jstr) (atStartOnly : bool)
  (nowP : nat -> Z) (nowT : nat -> nat -> Z) :
  length (parseText text names atStartOnly nowP nowT)
  = if isEmpty text then 0
    else S (length (filter (fun c => JS.char_eqb c c_newline) text)).
Proof.
  unfold parseText. destruct (isEmpty text); [reflexivity|].
  now rewrite mapFrom_length, splitLines_length.
Qed.

(** The spans of the tokens of each paragraph, joined paragraph by
    paragraph with line feeds, spell the text that was parsed; the tokens
    of the paragraphs are the tokens of these callback runs. *)
Theorem parseText_reconstructs_text
  (text : jstr) (names : list jstr) (atStartOnly : bool)
  (nowP : nat -> Z) (nowT : nat -> nat -> Z) :
  map tokens (parseText text names atStartOnly nowP nowT)
  = map (map v_token) (paragraphVisits text names atStartOnly nowT)
  /\ join [c_newline]
          (map (fun vs => concat (map v_part vs))
               (paragraphVisits text names atStartOnly nowT))
     = text.
Proof.
  unfold parseText, paragraphVisits.
  destruct (isEmpty text) eqn:E.
  - destruct text; [split; reflexivity | discriminate].
  - split.
    + rewrite !mapFrom_map. reflexivity.
    + rewrite mapFrom_map.
      rewrite (mapFrom_ext _ _ _ (fun line _ => line)).
      * rewrite mapFrom_const, map_id. apply splitLines_join.
      * intros line i _. exact (tiles_concat _ _ _ (visits_tiles line names i atStartOnly (nowT i))).
Qed.

(** No token of any paragraph holds a line feed. *)
Theorem parseText_tokens_single_line
  (input : jstr) (names : list jstr) (atStartOnly : bool)
  (nowP : nat -> Z) (nowT : nat -> nat -> Z) (p : ParsedParagraph) (t : TextToken) :
  In p (parseText input names atStartOnly nowP nowT) ->
  In t (tokens p) ->
  ~ In c_newline (text t).
Proof.
  unfold parseText. destruct (isEmpty input); [contradiction|].
  intros Hp Ht. apply mapFrom_In in Hp. destruct Hp as (line & i & Hl & ->).
  simpl in Ht. unfold tokenizeLine in Ht. apply in_map_iff in Ht.
  destruct Ht as (v & <- & Hv).
  destruct (visit_inv _ _ _ _ _ _ Hv) as (_ & _ & suf & E & _).
  destruct (token_text_in_span _ _ _ _ _ _ Hv) as (a & b & P).
  pose proof (splitLines_no_newline input) as F. rewrite Forall_forall in F.
  intros Hn. apply (F line Hl). rewrite E, P.
  apply in_or_app. right. apply in_or_app. left.
  apply in_or_app. right. apply in_or_app. now left.
Qed.

Lemma parseText_tokens_single_line_witness :
  ~ In c_newline (U "مصطفى").
Proof.
  apply (parseText_tokens_single_line (U "قال" ++ [c_newline] ++ U "مصطفى")
           [U "مصطفى"] true (fun _ => 0%Z) (fun _ _ => 0%Z)
           {| para_id := {| pid_index := 1; pid_now := 0 |};
              tokens := [Build_TextToken (Build_TokenId 1 4 0%Z) (U "مصطفى") NAME] |}
           (Build_TextToken (Build_TokenId 1 4 0%Z) (U "مصطفى") NAME)).
  - vm_compute. right. left. reflexivity.
  - left. reflexivity.
Defined.

(** ** The name list of the application *)

Lemma trimStart_head (s : jstr) (x : char) (r : jstr) :
  JS.trimStart s = x :: r -> JS.isWhiteSpace x = false.
Proof.
  induction s as [|c s IH]; simpl; [discriminate|].
  destruct (JS.isWhiteSpace c) eqn:E; [assumption|].
  intros H. inversion H; subst. assumption.
Qed.

Lemma trimStart_fixed (s : jstr) (x : char) (r : jstr) :
  s = x :: r -> JS.isWhiteSpace x = false -> JS.trimStart s = s.
Proof. intros -> H. simpl. now rewrite H. Qed.

Lemma trimStart_idem (s : jstr) : JS.trimStart (JS.trimStart s) = JS.trimStart s.
Proof.
  destruct (JS.trimStart s) as [|x r] eqn:E; [reflexivity|].
  apply (trimStart_fixed (x :: r) x r eq_refl). exact (trimStart_head s x r E).
Qed.

Lemma trimEnd_split (s : jstr) :
  exists ws, s = JS.trimEnd s ++ ws /\ forallb JS.isWhiteSpace ws = true.
Proof.
  unfold JS.trimEnd. destruct (trimStart_split (rev s)) as (ws & E & W).
  exists (rev ws). split.
  - rewrite <- rev_app_distr, <- E. now rewrite rev_involutive.
  - now rewrite forallb_rev.
Qed.

Lemma trimEnd_idem (s : jstr) : JS.trimEnd (JS.trimEnd s) = JS.trimEnd s.
Proof. unfold JS.trimEnd. now rewrite rev_involutive, trimStart_idem. Qed.

(** Trimming leaves nothing to trim. *)
Lemma trim_idem (s : jstr) : JS.trim (JS.trim s) = JS.trim s.
Proof.
  unfold JS.trim.
  assert (H : JS.trimStart (JS.trimEnd (JS.trimStart s)) = JS.trimEnd (JS.trimStart s)).
  { destruct (JS.trimStart s) as [|x r] eqn:E; [reflexivity|].
    pose proof (trimStart_head s x r E) as Hx.
    destruct (trimEnd_split (x :: r)) as (ws & Es & W).
    destruct (JS.trimEnd (x :: r)) as [|y r'] eqn:T.
    - reflexivity.
    - simpl in Es. inversion Es; subst y. simpl. now rewrite Hx. }
  rewrite H. apply trimEnd_idem.
Qed.

Lemma trimmedName_notBlank (n : jstr) : trimmedName n -> notBlank n.
Proof.
  intros (Hne & Ht). unfold notBlank.
  destruct (forallb JS.isWhiteSpace n) eqn:E; [|reflexivity].
  exfalso. apply Hne. rewrite <- Ht.
  pose proof (trim_blank n) as B. rewrite E in B. apply Nat.eqb_eq in B.
  now apply length_zero_iff_nil in B.
Qed.

Lemma NoDup_app_fresh (A : Type) (l : list A) (x : A) :
  NoDup l -> ~ In x l -> NoDup (l ++ [x]).
Proof.
  induction 1 as [|y l Hy Hl IH]; intros Hx; simpl.
  - constructor; [intros [] | constructor].
  - constructor.
    + intros H. apply in_app_or in H. destruct H as [H|[H|[]]]; [contradiction|].
      apply Hx. now left.
    + apply IH. intros H. apply Hx. now right.
Qed.

Lemma handleAddName_cases (st : NamesState) :
  (handleAddName st = st)
  \/ (JS.trim (newNameInput st) <> []
      /\ ~ In (JS.trim (newNameInput st)) (customNames st)
      /\ handleAddName st
         = {| customNames := customNames st ++ [JS.trim (newNameInput st)];
              newNameInput := [] |}).
Proof.
  unfold handleAddName.
  destruct (isEmpty (JS.trim (newNameInput st))) eqn:E; [now left|].
  destruct (JS.arr_includes (customNames st) (JS.trim (newNameInput st))) eqn:I;
    [now left|].
  right. split; [intros H; rewrite H in E; discriminate|].
  split; [|reflexivity].
  intros H. apply arr_includes_In in H. congruence.
Qed.

(** The name list stays well kept: the default list has no duplicate, no
    empty name and no name with white space at either end, and adding or
    removing a name keeps it so, whatever is typed. *)
Theorem names_stay_trimmed :
  (NoDup DEFAULT_NAMES /\ Forall trimmedName DEFAULT_NAMES)
  /\ (forall st : NamesState,
         NoDup (customNames st) -> Forall trimmedName (customNames st) ->
         NoDup (customNames (handleAddName st))
         /\ Forall trimmedName (customNames (handleAddName st)))
  /\ (forall (n : jstr) (st : NamesState),
         NoDup (customNames st) -> Forall trimmedName (customNames st) ->
         NoDup (customNames (removeName n st))
         /\ Forall trimmedName (customNames (removeName n st))).
Proof.
  split; [|split].
  - split.
    + repeat (constructor; [vm_compute; intuition discriminate|]). constructor.
    + repeat (constructor; [split; [discriminate | vm_compute; reflexivity]|]).
      constructor.
  - intros st Hd Ht.
    destruct (handleAddName_cases st) as [-> | (Hne & Hfresh & ->)]; [auto|].
    simpl. split.
    + now apply NoDup_app_fresh.
    + apply Forall_app. split; [assumption|].
      constructor; [|constructor]. split; [assumption | apply trim_idem].
  - intros n st Hd Ht. simpl. split.
    + now apply NoDup_filter.
    + rewrite Forall_forall in *. intros x Hx. apply filter_In in Hx.
      apply Ht. tauto.
Qed.

Lemma names_stay_trimmed_witness :
  NoDup (customNames (handleAddName {| customNames := DEFAULT_NAMES;
                                       newNameInput := U "  يوسف " |}))
  /\ Forall trimmedName
            (customNames (handleAddName {| customNames := DEFAULT_NAMES;
                                           newNameInput := U "  يوسف " |})).
Proof.
  apply (proj1 (proj2 names_stay_trimmed)
               {| customNames := DEFAULT_NAMES; newNameInput := U "  يوسف " |}).
  - exact (proj1 (proj1 names_stay_trimmed)).
  - exact (proj2 (proj1 names_stay_trimmed)).
Defined.

Lemma filter_out_fresh (l : list jstr) (x : jstr) :
  ~ In x l -> filter (fun n => negb (JS.str_eqb n x)) l = l.
Proof.
  induction l as [|y l IH]; intros H; simpl; [reflexivity|].
  destruct (JS.str_eqb y x) eqn:E.
  - apply str_eqb_eq in E. exfalso. apply H. now left.
  - simpl. f_equal. apply IH. intros Hx. apply H. now right.
Qed.

Lemma str_eqb_refl (x : jstr) : JS.str_eqb x x = true.
Proof. now apply str_eqb_eq. Qed.

(** Adding a name and removing it again restores the list: when the
    trimmed input is not empty and not yet in the list, it is appended as
    the last name and the input is cleared, and removing that name gives
    back the list as it was.  A removed name is no longer in the list. *)
Theorem add_then_remove (st : NamesState) :
  JS.trim (newNameInput st) <> [] ->
  ~ In (JS.trim (newNameInput st)) (customNames st) ->
  customNames (handleAddName st) = customNames st ++ [JS.trim (newNameInput st)]
  /\ newNameInput (handleAddName st) = []
  /\ customNames (removeName (JS.trim (newNameInput st)) (handleAddName st))
     = customNames st
  /\ forall n st', ~ In n (customNames (removeName n st')).
Proof.
  intros Hne Hfresh.
  assert (E : handleAddName st
              = {| customNames := customNames st ++ [JS.trim (newNameInput st)];
                   newNameInput := [] |}).
  { destruct (handleAddName_cases st) as [H | (_ & _ & H)]; [|exact H].
    exfalso. unfold handleAddName in H.
    destruct (JS.trim (newNameInput st)) as [|c t] eqn:T; [congruence|].
    assert (I : JS.arr_includes (customNames st) (c :: t) = false).
    { destruct (JS.arr_includes (customNames st) (c :: t)) eqn:I; [|reflexivity].
      apply arr_includes_In in I. contradiction. }
    rewrite I in H. simpl in H.
    apply (f_equal (fun s => length (customNames s))) in H. simpl in H.
    rewrite length_app in H. simpl in H. lia. }
  rewrite E. simpl. split; [reflexivity|]. split; [reflexivity|]. split.
  - rewrite filter_app. simpl. rewrite str_eqb_refl. simpl.
    rewrite app_nil_r. now apply filter_out_fresh.
  - intros n st' H. simpl in H. apply filter_In in H. destruct H as (_ & H).
    rewrite str_eqb_refl in H. discriminate.
Qed.

Lemma add_then_remove_witness :
  let st := {| customNames := DEFAULT_NAMES; newNameInput := U "  يوسف " |} in
  customNames (handleAddName st) = DEFAULT_NAMES ++ [U "يوسف"]
  /\ newNameInput (handleAddName st) = []
  /\ customNames (removeName (U "يوسف") (handleAddName st)) = DEFAULT_NAMES
  /\ forall n st', ~ In n (customNames (removeName n st')).
Proof.
  intros st. apply (add_then_remove st).
  - vm_compute. discriminate.
  - vm_compute. intuition discriminate.
Defined.

(** ** Matches consume text *)

Lemma rmatch_consumes (r : regex) :
  forall (A : Type) (s : jstr) (cont : jstr -> option A) (a : A),
    nullable r = false ->
    rmatch r s cont = Some a ->
    exists m rest, s = m ++ rest /\ m <> [] /\ cont rest = Some a.
Proof.
  induction r as [|c|r1 IH1 r2 IH2|r1 IH1 r2 IH2|r1 IH1|k|k];
    intros A s cont a N H; simpl in N; try discriminate.
  - simpl in H. destruct s as [|x s]; [discriminate|].
    destruct (JS.char_eqb x c); [|discriminate].
    exists [x], s. split; [reflexivity|]. split; [discriminate | assumption].
  - simpl in H. apply andb_false_iff in N. destruct N as [N|N].
    + apply (IH1 _ _ _ _ N) in H. destruct H as (m1 & s1 & -> & Hm & H).
      apply rmatch_suffix in H. destruct H as (m2 & s2 & -> & H).
      exists (m1 ++ m2), s2. rewrite app_assoc. split; [reflexivity|].
      split; [destruct m1; [congruence | discriminate] | assumption].
    + apply rmatch_suffix in H. destruct H as (m1 & s1 & -> & H).
      apply (IH2 _ _ _ _ N) in H. destruct H as (m2 & s2 & -> & Hm & H).
      exists (m1 ++ m2), s2. rewrite app_assoc. split; [reflexivity|].
      split; [|assumption].
      intros E. apply app_eq_nil in E. destruct E as (_ & E). contradiction.
  - simpl in H. apply orb_false_iff in N. destruct N as (N1 & N2).
    destruct (rmatch r1 s cont) as [b|] eqn:E.
    + inversion H; subst b. exact (IH1 _ _ _ _ N1 E).
    + exact (IH2 _ _ _ _ N2 H).
  - simpl in H. destruct s as [|x s]; [discriminate|].
    destruct (in_cls k x); [|discriminate].
    apply (star_loop_suffix A k s cont a) in H. destruct H as (m & rest & -> & H).
    exists (x :: m), rest. split; [reflexivity|]. split; [discriminate | assumption].
Qed.

Lemma nullable_lit (n : jstr) : n <> [] -> nullable (lit n) = false.
Proof. destruct n; [congruence | reflexivity]. Qed.

Lemma nullable_alts (n : jstr) (ns : list jstr) :
  (forall x, In x (n :: ns) -> x <> []) ->
  nullable (alts (escapeRegExp n) (map escapeRegExp ns)) = false.
Proof.
  revert n. induction ns as [|n' ns IH]; intros n H; simpl.
  - apply nullable_lit. apply H. now left.
  - unfold escapeRegExp at 1. rewrite nullable_lit by (apply H; now left).
    simpl. apply IH. intros x Hx. apply H. now right.
Qed.

Lemma exec_consumes (groups : list regex) :
  Forall (fun g => nullable g = false) groups ->
  forall s n caps, exec groups s = Some (n, caps) -> 0 < n.
Proof.
  induction 1 as [|g gs Hg Hgs IH]; intros s n caps H; simpl in H; [discriminate|].
  destruct (matchAt g s) as [k|] eqn:E.
  - injection H as -> _. unfold matchAt in E.
    apply (rmatch_consumes g _ _ _ _ Hg) in E.
    destruct E as (m & rest & -> & Hm & E). injection E as <-.
    rewrite length_app. destruct m as [|y m]; [congruence|].
    rewrite length_cons. lia.
  - destruct (exec gs s) as [[k caps']|] eqn:E'; [|discriminate].
    inversion H; subst. exact (IH _ _ _ E').
Qed.

(** With a dictionary that does not hold the empty name, as the
    application keeps it, every match of the master pattern consumes at
    least one code unit: the captured span is never empty. *)
Theorem matches_consume_text (names : list jstr) (s : jstr) (n : nat)
        (caps : list (option jstr)) :
  (forall x, In x names -> x <> []) ->
  exec (masterRegex (sortedNames names)) s = Some (n, caps) ->
  0 < n /\ joined caps = firstn n s /\ firstn n s <> [].
Proof.
  intros Hn H.
  assert (P : 0 < n).
  { apply (exec_consumes (masterRegex (sortedNames names))) with (s := s) (caps := caps);
      [|exact H].
    unfold masterRegex. apply Forall_app. split.
    - repeat constructor.
    - destruct (sortedNames names) as [|x xs] eqn:S; [constructor|].
      assert (Hx : forall y, In y (x :: xs) -> y <> []).
      { intros y Hy. apply Hn. apply (proj1 (sortNames_In names y)).
        unfold sortedNames in S. now rewrite S. }
      assert (E : namesRegexPart (x :: xs)
                  = Some (alts (escapeRegExp x) (map escapeRegExp xs))).
      { simpl. destruct x; [exfalso; apply (Hx []); [now left | reflexivity]|].
        reflexivity. }
      rewrite E. constructor; [|constructor]. now apply nullable_alts. }
  destruct (exec_joined _ _ _ _ H) as (J & L & _).
  split; [assumption|]. split; [assumption|].
  intros E. apply (f_equal (@length char)) in E.
  rewrite length_firstn in E. simpl in E. lia.
Qed.

Lemma matches_consume_text_witness :
  0 < 5 /\ joined [None; None; None; Some (U "مصطفى")] = firstn 5 (U "مصطفى قال")
  /\ firstn 5 (U "مصطفى قال") <> [].
Proof.
  apply (matches_consume_text DEFAULT_NAMES (U "مصطفى قال") 5
           [None; None; None; Some (U "مصطفى")]).
  - intros x Hx. vm_compute in Hx.
    repeat (destruct Hx as [<-|Hx]; [discriminate|]). contradiction.
  - vm_compute. reflexivity.
Defined.

(** ** The word count *)

Lemma star_space_greedy (A : Type) (cont : jstr -> option A) (s : jstr) :
  (forall x, cont x <> None) ->
  star_loop Space s cont = cont (JS.trimStart s).
Proof.
  intros Hc. induction s as [|x s IH]; [reflexivity|].
  cbn [star_loop in_cls JS.trimStart].
  destruct (JS.isWhiteSpace x); [|reflexivity].
  rewrite IH. destruct (cont (JS.trimStart s)) eqn:E; [reflexivity|].
  now apply Hc in E.
Qed.

(** One or more white space: the whole run is taken. *)
Lemma matchAt_spaces (c : char) (s : jstr) :
  matchAt (Plus Space) (c :: s)
  = if JS.isWhiteSpace c then Some (S (length s - length (JS.trimStart s))) else None.
Proof.
  unfold matchAt. cbn [rmatch in_cls].
  destruct (JS.isWhiteSpace c); [|reflexivity].
  rewrite star_space_greedy by discriminate.
  destruct (trimStart_split s) as (ws & E & _).
  f_equal. cbn [length]. rewrite E at 1 3. rewrite length_app. lia.
Qed.

Lemma skipn_spaces (s : jstr) :
  skipn (length s - length (JS.trimStart s)) s = JS.trimStart s.
Proof.
  destruct (trimStart_split s) as (ws & E & _).
  rewrite E at 1 3. rewrite length_app, Nat.add_sub, skipn_app, skipn_all, Nat.sub_diag.
  reflexivity.
Qed.

Lemma endsUnspaced_tail (c : char) (s : jstr) :
  s <> [] -> endsUnspaced (c :: s) -> endsUnspaced s.
Proof.
  intros Hne (a & z & E & Hz). destruct a as [|y a].
  - simpl in E. inversion E; subst. congruence.
  - simpl in E. inversion E; subst. now exists a, z.
Qed.

Lemma endsUnspaced_trimStart (s : jstr) :
  endsUnspaced s -> endsUnspaced (JS.trimStart s).
Proof.
  induction s as [|c s IH]; intros H; [exact H|].
  simpl. destruct (JS.isWhiteSpace c) eqn:W; [|exact H].
  apply IH. apply (endsUnspaced_tail c); [|exact H].
  intros ->. destruct H as (a & z & E & Hz).
  destruct a as [|y [|y' a]]; simpl in E; inversion E; subst; congruence.
Qed.

Lemma endsUnspaced_nonempty (s : jstr) : endsUnspaced s -> s <> [].
Proof. intros (a & z & -> & _). destruct a; discriminate. Qed.

Lemma filter_unspaced (s : jstr) :
  forallb (fun c => negb (JS.isWhiteSpace c)) s = true ->
  filter (fun c => negb (JS.isWhiteSpace c)) s = s.
Proof.
  induction s as [|c s IH]; intros H; [reflexivity|].
  cbn [forallb filter] in *. apply andb_true_iff in H. destruct H as (Hc & H).
  rewrite Hc. f_equal. now apply IH.
Qed.

Lemma filter_spaces (s : jstr) :
  forallb JS.isWhiteSpace s = true ->
  filter (fun c => negb (JS.isWhiteSpace c)) s = [].
Proof.
  induction s as [|c s IH]; intros H; [reflexivity|].
  cbn [forallb filter] in *. apply andb_true_iff in H. destruct H as (Hc & H).
  rewrite Hc. cbn [negb]. now apply IH.
Qed.

Lemma filter_trimStart (s : jstr) :
  filter (fun c => negb (JS.isWhiteSpace c)) (JS.trimStart s)
  = filter (fun c => negb (JS.isWhiteSpace c)) s.
Proof.
  destruct (trimStart_split s) as (ws & E & W).
  rewrite E at 2. rewrite filter_app, (filter_spaces ws W). reflexivity.
Qed.

(** The pieces between the runs of white space. *)
Lemma splitPlain_words (pend rest : jstr) :
  forallb (fun c => negb (JS.isWhiteSpace c)) pend = true ->
  let ws := splitPlain_loop (Plus Space) pend rest in
  concat ws = filter (fun c => negb (JS.isWhiteSpace c)) (pend ++ rest)
  /\ Forall (fun w => forallb (fun c => negb (JS.isWhiteSpace c)) w = true) ws
  /\ ((pend <> [] \/ exists x r, rest = x :: r /\ JS.isWhiteSpace x = false) ->
      (rest = [] \/ endsUnspaced rest) ->
      Forall (fun w => w <> []) ws).
Proof.
  funelim (splitPlain_loop (Plus Space) pend rest); intros Hp; cbv zeta.
  - rewrite app_nil_r. cbn [concat]. rewrite app_nil_r.
    split; [|split].
    + symmetry. now apply filter_unspaced.
    + constructor; [assumption | constructor].
    + intros [H|(x & r & E & _)] _; [|discriminate].
      constructor; [assumption | constructor].
  - rewrite matchAt_spaces in Heq. destruct (JS.isWhiteSpace c) eqn:W; [|discriminate].
    injection Heq as <-. rewrite skipn_spaces in *.
    destruct (H eq_refl) as (C & F & N). clear H.
    split; [|split].
    + cbn [concat]. rewrite C. cbn [app]. rewrite filter_app. cbn [filter].
      rewrite W. cbn [negb]. rewrite filter_trimStart.
      now rewrite (filter_unspaced pend Hp).
    + constructor; assumption.
    + intros [Hpe|(x & r & E & Hx)] He.
      * constructor; [assumption|].
        destruct He as [He|He]; [discriminate|].
        assert (Hr : rest' <> []).
        { intros ->. destruct He as (a & z & E & Hz).
          destruct a as [|y [|y' a]]; simpl in E; inversion E; subst; congruence. }
        pose proof (endsUnspaced_trimStart rest' (endsUnspaced_tail c rest' Hr He)) as Ht.
        apply N; [|now right].
        right. destruct (JS.trimStart rest') as [|x r] eqn:T.
        -- exfalso. now apply (endsUnspaced_nonempty [] Ht).
        -- exists x, r. split; [reflexivity|]. exact (trimStart_head rest' x r T).
      * inversion E; subst. congruence.
  - rewrite matchAt_spaces in Heq. destruct (JS.isWhiteSpace c) eqn:W; [discriminate|].
    assert (Hp' : forallb (fun c0 => negb (JS.isWhiteSpace c0)) (pend ++ [c]) = true).
    { rewrite forallb_app, Hp. simpl. now rewrite W. }
    destruct (H Hp') as (C & F & N). clear H.
    split; [|split].
    + rewrite C. now rewrite <- app_assoc.
    + assumption.
    + intros _ He. apply N.
      * left. destruct pend; discriminate.
      * destruct He as [He|He]; [discriminate|].
        destruct rest' as [|y r]; [now left|]. right.
        apply (endsUnspaced_tail c); [discriminate | assumption].
  - rewrite matchAt_spaces in Heq. destruct (JS.isWhiteSpace c); discriminate.
  - rewrite matchAt_spaces in Heq. destruct (JS.isWhiteSpace c); discriminate.
Qed.

Lemma trim_head (s : jstr) (x : char) (r : jstr) :
  JS.trim s = x :: r -> JS.isWhiteSpace x = false.
Proof.
  intros E. pose proof (trim_idem s) as I. rewrite E in I.
  unfold JS.trim in I.
  destruct (JS.isWhiteSpace x) eqn:W; [|reflexivity]. exfalso.
  cbn [JS.trimStart] in I. rewrite W in I.
  apply (f_equal (@length char)) in I. unfold JS.trimEnd in I.
  rewrite length_rev in I.
  destruct (trimStart_split (rev (JS.trimStart r))) as (w1 & E1 & _).
  destruct (trimStart_split r) as (w2 & E2 & _).
  apply (f_equal (@length char)) in E1, E2.
  rewrite length_app in E1, E2. rewrite length_rev in E1. simpl in I. lia.
Qed.

Lemma trim_last (s : jstr) : JS.trim s <> [] -> endsUnspaced (JS.trim s).
Proof.
  unfold JS.trim, JS.trimEnd. intros H.
  destruct (JS.trimStart (rev (JS.trimStart s))) as [|x r] eqn:E; [now simpl in H|].
  exists (rev r), x. split; [reflexivity|].
  exact (trimStart_head _ x r E).
Qed.

Lemma filter_trim (s : jstr) :
  filter (fun c => negb (JS.isWhiteSpace c)) (JS.trim s)
  = filter (fun c => negb (JS.isWhiteSpace c)) s.
Proof.
  unfold JS.trim, JS.trimEnd.
  rewrite <- (rev_involutive (filter _ (rev (JS.trimStart (rev (JS.trimStart s)))))).
  rewrite <- filter_rev, rev_involutive, filter_trimStart, filter_rev, rev_involutive.
  apply filter_trimStart.
Qed.

Lemma splitPlain_loop_nonempty (r : regex) (pend rest : jstr) :
  splitPlain_loop r pend rest <> [].
Proof.
  funelim (splitPlain_loop r pend rest); try discriminate; assumption.
Qed.

(** The pieces of [split] on white space, with the runs of white space it
    split at put back between them, are the text. *)
Lemma splitPlain_spaced (pend rest : jstr) :
  spacedWords (splitPlain_loop (Plus Space) pend rest) (pend ++ rest).
Proof.
  funelim (splitPlain_loop (Plus Space) pend rest).
  - simpl. now rewrite app_nil_r.
  - rewrite matchAt_spaces in Heq. destruct (JS.isWhiteSpace c) eqn:W; [|discriminate].
    injection Heq as <-. rewrite skipn_spaces in *.
    pose proof (splitPlain_loop_nonempty (Plus Space) [] (JS.trimStart rest')) as Hne.
    destruct (trimStart_split rest') as (ws & E & Wws).
    cbn [spacedWords].
    destruct (splitPlain_loop (Plus Space) [] (JS.trimStart rest')) as [|w l] eqn:L;
      [congruence|].
    exists (c :: ws), (JS.trimStart rest'). split; [|split; [|split]].
    + rewrite E at 1. reflexivity.
    + discriminate.
    + cbn [forallb]. now rewrite W, Wws.
    + exact H.
  - rewrite <- app_assoc in H. exact H.
  - rewrite matchAt_spaces in Heq. destruct (JS.isWhiteSpace c); discriminate.
  - rewrite matchAt_spaces in Heq. destruct (JS.isWhiteSpace c); discriminate.
Qed.

(** The word counter.  For an input of white space only, all three figures
    are zero.  Otherwise the characters are those of the trimmed input, and
    the words counted are the maximal runs without white space of the
    trimmed input: there is at least one, none is empty, none holds white
    space, and the trimmed input is exactly these words in order with a
    non-empty run of white space between each word and the next, so that
    every word is bounded by white space or by an end of the text; they
    therefore spell the input with its white space removed. *)
Theorem stats_words (inputText : jstr) (paragraphs : list ParsedParagraph) :
  (forallb JS.isWhiteSpace inputText = true ->
   stats inputText paragraphs = {| chars := 0; words := 0; paras := 0 |})
  /\ (forallb JS.isWhiteSpace inputText = false ->
      let ws := countedWords (JS.trim inputText) in
      stats inputText paragraphs
      = {| chars := length (JS.trim inputText); words := length ws;
           paras := length paragraphs |}
      /\ 1 <= length ws
      /\ Forall (fun w => w <> []
                          /\ forallb (fun c => negb (JS.isWhiteSpace c)) w = true) ws
      /\ spacedWords ws (JS.trim inputText)
      /\ concat ws = filter (fun c => negb (JS.isWhiteSpace c)) inputText).
Proof.
  pose proof (trim_blank inputText) as B. unfold stats. split.
  - intros W. rewrite W in B. apply Nat.eqb_eq in B.
    apply length_zero_iff_nil in B. now rewrite B.
  - intros W. cbv zeta. rewrite W in B. apply Nat.eqb_neq in B.
    destruct (JS.trim inputText) as [|x r] eqn:T; [now simpl in B|].
    split; [reflexivity|].
    pose proof (trim_head inputText x r T) as Hx.
    assert (Hl : endsUnspaced (x :: r)).
    { rewrite <- T. apply trim_last. rewrite T. discriminate. }
    pose proof (splitPlain_spaced [] (x :: r)) as Sp.
    destruct (splitPlain_words [] (x :: r) eq_refl) as (C & F & N).
    fold (splitPlain (x :: r) (Plus Space)) in C, F, N, Sp.
    fold (countedWords (x :: r)) in C, F, N, Sp.
    specialize (N (or_intror (ex_intro _ x (ex_intro _ r (conj eq_refl Hx))))
                  (or_intror Hl)).
    assert (Hc : concat (countedWords (x :: r))
                 = filter (fun c => negb (JS.isWhiteSpace c)) inputText).
    { rewrite C. cbn [app]. rewrite <- T. apply filter_trim. }
    split; [|split; [|split; [exact Sp | exact Hc]]].
    + destruct (countedWords (x :: r)) as [|w ws']; [|simpl; lia].
      exfalso. cbn [concat app filter] in C. rewrite Hx in C.
      discriminate C.
    + rewrite Forall_forall in *. intros w Hw. split; [now apply N | now apply F].
Qed.

Lemma stats_words_witness :
  let ws := countedWords (JS.trim (U " قال  مصطفى ")) in
  stats (U " قال  مصطفى ") []
  = {| chars := length (JS.trim (U " قال  مصطفى ")); words := length ws; paras := 0 |}
  /\ 1 <= length ws
  /\ Forall (fun w => w <> []
                      /\ forallb (fun c => negb (JS.isWhiteSpace c)) w = true) ws
  /\ spacedWords ws (JS.trim (U " قال  مصطفى "))
  /\ concat ws = filter (fun c => negb (JS.isWhiteSpace c)) (U " قال  مصطفى ").
Proof.
  apply (proj2 (stats_words (U " قال  مصطفى ") [])).
  vm_compute. reflexivity.
Defined.

(** The words of that input. *)
Lemma stats_words_example :
  countedWords (JS.trim (U " قال  مصطفى ")) = [U "قال"; U "مصطفى"].
Proof. vm_compute. reflexivity. Qed.

(** The paragraph figure, once the input is parsed: zero for an input of
    white space only, also when it has line feeds and so paragraphs;
    otherwise one more than the line feeds of the input as typed, blank
    lines before and after the text included. *)
Theorem stats_paragraphs
  (inputText : jstr) (names : list jstr) (atStartOnly : bool)
  (nowP : nat -> Z) (nowT : nat -> nat -> Z) :
  paras (stats inputText (parseText inputText names atStartOnly nowP nowT))
  = if forallb JS.isWhiteSpace inputText then 0
    else S (length (filter (fun c => JS.char_eqb c c_newline) inputText)).
Proof.
  pose proof (trim_blank inputText) as B. unfold stats.
  destruct (forallb JS.isWhiteSpace inputText) eqn:W.
  - apply Nat.eqb_eq in B. apply length_zero_iff_nil in B. now rewrite B.
  - apply Nat.eqb_neq in B.
    destruct (JS.trim inputText) as [|x r] eqn:T; [now simpl in B|].
    cbn [isEmpty paras]. unfold parseText.
    destruct inputText as [|c t]; [discriminate W|]. cbn [isEmpty].
    now rewrite mapFrom_length, splitLines_length.
Qed.

(** ** Empty paragraphs *)

(** A line has no token exactly when it is empty: the renderer's
    placeholder for a paragraph without tokens stands for an empty line
    only, and a line of white space is a paragraph with a token. *)
Theorem no_tokens_iff_empty_line
  (line : jstr) (names : list jstr) (lineIndex : nat) (atStartOnly : bool)
  (now : nat -> Z) :
  tokenizeLine line names lineIndex atStartOnly now = [] <-> line = [].
Proof.
  pose proof (visits_tiles line names lineIndex atStartOnly now) as T.
  unfold tokenizeLine. split.
  - intros H. apply map_eq_nil in H. rewrite H in T. exact T.
  - intros ->. reflexivity.
Qed.

Lemma no_tokens_iff_empty_line_witness :
  tokenizeLine [] [U "مصطفى"] 0 true noClock = [].
Proof. apply (proj2 (no_tokens_iff_empty_line [] [U "مصطفى"] 0 true noClock)). reflexivity. Defined.

(** ** Ids across the document *)

Lemma tokenizeLine_ids (line : jstr) (names : list jstr) (lineIndex : nat)
      (atStartOnly : bool) (now : nat -> Z) :
  NoDup (map id (tokenizeLine line names lineIndex atStartOnly now))
  /\ Forall (fun i => id_line i = lineIndex)
            (map id (tokenizeLine line names lineIndex atStartOnly now)).
Proof.
  unfold tokenizeLine, visits. destruct (isEmpty line);
    [split; constructor|].
  destruct (forEach_indices line names lineIndex atStartOnly now
              (split line (masterRegex (sortedNames names))) 0 0) as (S & F).
  split.
  - apply StronglySorted_lt_NoDup in S.
    rewrite (map_ext_in v_index (fun v => id_index (id (v_token v)))) in S.
    + rewrite <- (map_map v_token (fun t => id_index (id t))) in S.
      rewrite <- (map_map id id_index) in S. exact (NoDup_map_inv _ _ S).
    + intros v Hv. rewrite Forall_forall in F. destruct (F v Hv) as (_ & E).
      now rewrite E.
  - rewrite Forall_map, Forall_map. eapply Forall_impl; [|exact F].
    simpl. intros v (_ & E). now rewrite E.
Qed.

Lemma document_ids (names : list jstr) (atStartOnly : bool) (nowT : nat -> nat -> Z)
      (lines : list jstr) :
  forall index,
    let ids := concat (mapFrom (fun line i =>
                                  map id (tokenizeLine line names i atStartOnly (nowT i)))
                               index lines) in
    NoDup ids /\ Forall (fun i => index <= id_line i) ids.
Proof.
  induction lines as [|line lines IH]; intros index; simpl.
  - split; constructor.
  - destruct (IH (S index)) as (N & F).
    destruct (tokenizeLine_ids line names index atStartOnly (nowT index)) as (N0 & F0).
    rewrite Forall_forall in F, F0. split.
    + apply NoDup_app; [assumption | assumption |].
      intros i Hi Hi'. specialize (F0 i Hi). specialize (F i Hi'). lia.
    + apply Forall_app. split; rewrite Forall_forall.
      * intros i Hi. specialize (F0 i Hi). lia.
      * intros i Hi. specialize (F i Hi). lia.
Qed.

(** Across a parsed text no two tokens have the same id and no two
    paragraphs have the same id, also when the clock stands still: the
    paragraph ids count up from zero, and a token id carries the index of
    its paragraph and of its part. *)
Theorem document_ids_distinct
  (input : jstr) (names : list jstr) (atStartOnly : bool)
  (nowP : nat -> Z) (nowT : nat -> nat -> Z) :
  let paragraphs := parseText input names atStartOnly nowP nowT in
  NoDup (concat (map (fun p => map id (tokens p)) paragraphs))
  /\ map (fun p => pid_index (para_id p)) paragraphs = seq 0 (length paragraphs)
  /\ NoDup (map para_id paragraphs).
Proof.
  cbv zeta. unfold parseText. destruct (isEmpty input).
  - repeat split; constructor.
  - assert (S : forall lines index,
               map (fun p => pid_index (para_id p))
                   (mapFrom (fun line i =>
                               {| para_id := {| pid_index := i; pid_now := nowP i |};
                                  tokens := tokenizeLine line names i atStartOnly (nowT i) |})
                            index lines)
               = seq index (length lines)).
    { induction lines as [|l ls IH]; intros index; simpl; [reflexivity|].
      now rewrite IH. }
    split; [|split].
    + rewrite mapFrom_map. cbn [tokens].
      exact (proj1 (document_ids names atStartOnly nowT (splitLines input) 0)).
    + rewrite mapFrom_length. apply S.
    + apply (NoDup_map_inv (fun i => pid_index i)). rewrite map_map, S.
      apply seq_NoDup.
Qed.
